(** * Safety-triage conversation engine of the patient chatbot

    A shallow embedding of [patient_chatbot.py]: the red-flag classifier
    ([check_for_red_flags]), the warning composer
    ([create_red_flag_warning]), the reply reconciliation helpers
    ([_has_warning], [_deduplicate_warnings]) and one conversation turn
    ([PatientChatbot.chat]).

    A Python [str] is a sequence of Unicode code points and is modelled as
    [list Z].  The two services the chatbot calls (document retrieval and
    text generation) are arguments of a turn and may raise.

    After the chatbot come its callers and the offline tooling, each in a
    module of its own: the response loop of [debug_test_runner.py]
    ([TestRunner]), the command loop of [main] ([Cli]) and the comparison
    of judge and human evaluations of [compare_evaluations.py]
    ([CompareEvaluations]). *)

From Stdlib Require Import String Ascii DecimalString.
From Stdlib Require Import ZArith List Bool Lia.
Import ListNotations.
Open Scope Z_scope.

(* ================================================================== *)
(** * Python strings *)
(* ================================================================== *)

Definition str := list Z.

(** An ASCII literal as a sequence of code points. *)
Definition s_ (s : string) : str :=
  map (fun a => Z.of_N (N_of_ascii a)) (list_ascii_of_string s).

Definition NL : str := [10].

Fixpoint str_eqb (a b : str) : bool :=
  match a, b with
  | [], [] => true
  | x :: a', y :: b' => (x =? y) && str_eqb a' b'
  | _, _ => false
  end.

(** [s.startswith(p)] *)
Fixpoint startswith (p s : str) : bool :=
  match p, s with
  | [], _ => true
  | _ :: _, [] => false
  | x :: p', y :: s' => (x =? y) && startswith p' s'
  end.

(** [p in s] for strings: [p] occurs in [s] as a contiguous run. *)
Fixpoint contains (p s : str) : bool :=
  startswith p s ||
  match s with
  | [] => false
  | _ :: s' => contains p s'
  end.

(** Number of positions of [s] at which [p] starts. *)
Fixpoint occurrences (p s : str) : nat :=
  match s with
  | [] => 0%nat
  | _ :: s' => ((if startswith p s then 1 else 0) + occurrences p s')%nat
  end.

(** [sep.join(parts)] *)
Fixpoint join (sep : str) (parts : list str) : str :=
  match parts with
  | [] => []
  | [p] => p
  | p :: rest => p ++ sep ++ join sep rest
  end.

(** [s.partition(sep)], as an option: the text before and after the first
    occurrence of [sep], or [None] when [sep] does not occur. *)
Fixpoint partition (sep s : str) : option (str * str) :=
  if startswith sep s then Some ([], skipn (length sep) s)
  else match s with
       | [] => None
       | c :: s' =>
           match partition sep s' with
           | Some (b, a) => Some (c :: b, a)
           | None => None
           end
       end.

(** [s.split(sep)] for a non-empty [sep]: cut at the first occurrence, go on
    in the rest.  Each cut shortens the text, so [length s] rounds are
    enough ([split_unfold] below is the loop's equation). *)
Fixpoint split_rounds (n : nat) (sep s : str) : list str :=
  match n with
  | O => [s]
  | S n' =>
      match partition sep s with
      | None => [s]
      | Some (b, a) => b :: split_rounds n' sep a
      end
  end.

Definition split (sep s : str) : list str := split_rounds (length s) sep s.

(** [l[-n:]] for a positive [n]. *)
Definition last_n {A} (n : nat) (l : list A) : list A :=
  skipn (length l - n) l.

(* ================================================================== *)
(** * Lower-casing *)
(* ================================================================== *)

Definition ascii_lower (c : Z) : Z :=
  if (65 <=? c) && (c <=? 90) then c + 32 else c.

Definition is_ascii (c : Z) : Prop := 0 <= c < 128.

Definition is_asciib (c : Z) : bool := (0 <=? c) && (c <? 128).

Definition CAPITAL_SIGMA : Z := 931.   (* U+03A3 *)
Definition FINAL_SIGMA : Z := 962.     (* U+03C2 *)
Definition SMALL_SIGMA : Z := 963.     (* U+03C3 *)

(** The case tables of the Python runtime.  [str.lower] maps every code
    point through the full lower-case mapping, except a capital sigma, whose
    image depends on its neighbours.  The tables themselves belong to the
    interpreter; what the development uses of them is that ASCII maps as
    ASCII does and that a lower-case mapping yields lower-case text. *)
Class CaseTables := {
  to_lower_full : Z -> list Z;
  is_cased : Z -> bool;
  is_case_ignorable : Z -> bool;
  to_lower_ascii : forall c, 0 <= c < 128 -> to_lower_full c = [ascii_lower c];
  to_lower_stable : forall c d, c <> CAPITAL_SIGMA -> In d (to_lower_full c) ->
                                d <> CAPITAL_SIGMA /\ to_lower_full d = [d];
  to_lower_sigma : to_lower_full FINAL_SIGMA = [FINAL_SIGMA] /\
                   to_lower_full SMALL_SIGMA = [SMALL_SIGMA]
}.

(** Tables that know the ASCII letters only. *)
Definition ascii_to_lower_full (c : Z) : list Z := [ascii_lower c].
Definition ascii_is_cased (c : Z) : bool :=
  ((65 <=? c) && (c <=? 90)) || ((97 <=? c) && (c <=? 122)).
Definition ascii_is_case_ignorable (c : Z) : bool :=
  (c =? 39) || (c =? 46) || (c =? 58) || (c =? 94) || (c =? 96).

(** The tables of an interpreter that knows the ASCII letters only: the laws
    of [CaseTables] can be met. *)
Definition ascii_tables : CaseTables.
Proof.
  refine {| to_lower_full := ascii_to_lower_full;
            is_cased := ascii_is_cased;
            is_case_ignorable := ascii_is_case_ignorable;
            to_lower_ascii := fun c _ => eq_refl;
            to_lower_stable := _;
            to_lower_sigma := conj eq_refl eq_refl |}.
  unfold ascii_to_lower_full, ascii_lower, CAPITAL_SIGMA. intros c d Hc [H|[]]. subst d.
  destruct ((65 <=? c) && (c <=? 90)) eqn:E.
  - apply andb_true_iff in E as [E1 E2]. apply Z.leb_le in E1, E2.
    split; [lia|]. replace ((65 <=? c + 32) && (c + 32 <=? 90)) with false; [reflexivity|].
    symmetry. apply andb_false_iff. right. apply Z.leb_gt. lia.
  - rewrite E. now split.
Defined.

Section Lower.
Context {U : CaseTables}.

(** First code point of [l] that is not case-ignorable. *)
Fixpoint skip_ignorable (l : str) : option Z :=
  match l with
  | [] => None
  | c :: l' => if is_case_ignorable c then skip_ignorable l' else Some c
  end.

(** The sigma at hand is final: a cased letter stands before it (over
    case-ignorable ones) and none after it.  [before] is the text before
    the sigma, nearest code point first. *)
Definition final_sigma (before after : str) : bool :=
  match skip_ignorable before with
  | Some c =>
      is_cased c &&
      match skip_ignorable after with
      | None => true
      | Some d => negb (is_cased d)
      end
  | None => false
  end.

Definition lower_at (before : str) (c : Z) (after : str) : list Z :=
  if c =? CAPITAL_SIGMA
  then [if final_sigma before after then FINAL_SIGMA else SMALL_SIGMA]
  else to_lower_full c.

Fixpoint lower_from (before s : str) : str :=
  match s with
  | [] => []
  | c :: rest => lower_at before c rest ++ lower_from (c :: before) rest
  end.

(** [s.lower()] *)
Definition lower (s : str) : str := lower_from [] s.

(** A code point that lower-casing leaves alone. *)
Definition is_lowered (d : Z) : Prop :=
  d <> CAPITAL_SIGMA /\ to_lower_full d = [d].
End Lower.

(* ================================================================== *)
(** * Regular expressions *)
(* ================================================================== *)

(** The fragment of [re] the pattern table is written in: literals, [.],
    alternation, concatenation and [*]. *)
Inductive regex : Type :=
| Void : regex
| Eps : regex
| Lit : Z -> regex
| Dot : regex
| Cat : regex -> regex -> regex
| Alt : regex -> regex -> regex
| Star : regex -> regex.

(** [.] matches every code point but a newline. *)
Definition dot_ok (c : Z) : bool := negb (c =? 10).

Inductive matches : regex -> str -> Prop :=
| MEps : matches Eps []
| MLit c : matches (Lit c) [c]
| MDot c : dot_ok c = true -> matches Dot [c]
| MCat r1 r2 s1 s2 : matches r1 s1 -> matches r2 s2 -> matches (Cat r1 r2) (s1 ++ s2)
| MAltL r1 r2 s : matches r1 s -> matches (Alt r1 r2) s
| MAltR r1 r2 s : matches r2 s -> matches (Alt r1 r2) s
| MStar0 r : matches (Star r) []
| MStarS r s1 s2 : matches r s1 -> matches (Star r) s2 -> matches (Star r) (s1 ++ s2).

Fixpoint nullable (r : regex) : bool :=
  match r with
  | Void => false
  | Eps => true
  | Lit _ => false
  | Dot => false
  | Cat r1 r2 => nullable r1 && nullable r2
  | Alt r1 r2 => nullable r1 || nullable r2
  | Star _ => true
  end.

(** What is left of [r] once [c] has been read. *)
Fixpoint deriv (c : Z) (r : regex) : regex :=
  match r with
  | Void => Void
  | Eps => Void
  | Lit d => if c =? d then Eps else Void
  | Dot => if dot_ok c then Eps else Void
  | Cat r1 r2 =>
      if nullable r1
      then Alt (Cat (deriv c r1) r2) (deriv c r2)
      else Cat (deriv c r1) r2
  | Alt r1 r2 => Alt (deriv c r1) (deriv c r2)
  | Star r1 => Cat (deriv c r1) (Star r1)
  end.

(** [re.match(r, s)]: some prefix of [s] matches. *)
Fixpoint re_match (r : regex) (s : str) : bool :=
  nullable r ||
  match s with
  | [] => false
  | c :: s' => re_match (deriv c r) s'
  end.

(** [re.search(r, s)]: a match starts at some position of [s]. *)
Fixpoint re_search (r : regex) (s : str) : bool :=
  re_match r s ||
  match s with
  | [] => false
  | _ :: s' => re_search r s'
  end.

Fixpoint lit (s : str) : regex :=
  match s with
  | [] => Eps
  | [c] => Lit c
  | c :: s' => Cat (Lit c) (lit s')
  end.

Fixpoint alts (rs : list regex) : regex :=
  match rs with
  | [] => Void
  | [r] => r
  | r :: rs' => Alt r (alts rs')
  end.

Definition any_of (words : list string) : regex := alts (map (fun w => lit (s_ w)) words).

Notation "r1 ;; r2" := (Cat r1 r2) (at level 61, right associativity).

(* ================================================================== *)
(** * Red flag detection *)
(* ================================================================== *)

Definition severe_pain : str := s_ "severe_pain".
Definition heavy_bleeding : str := s_ "heavy_bleeding".
Definition fever : str := s_ "fever".
Definition prolonged_constipation : str := s_ "prolonged_constipation".
Definition black_stool : str := s_ "black_stool".
Definition dizziness : str := s_ "dizziness".

Open Scope string_scope.

(** The pattern table, in the order the dictionary is written. *)
Definition RED_FLAG_PATTERNS : list (str * regex) :=
  [ (severe_pain,
      any_of ["severe pain"; "excruciating"; "unbearable"; "extreme pain"; "terrible pain"]);
    (heavy_bleeding,
      any_of ["heavy bleed"; "lots of blood"; "pouring"; "filling toilet"; "gushing"; "blood clot"]);
    (fever,
      any_of ["fever"; "temperature"; "chills"; "hot and cold"]);
    (prolonged_constipation,
      any_of ["no"; "haven't"; "havent"] ;; Star Dot ;;
      any_of ["bowel movement"; "poop"; "stool"] ;; Star Dot ;;
      any_of ["3"; "4"; "5"; "6"; "7"] ;; lit (s_ " day"));
    (black_stool,
      alts [lit (s_ "black stool"); lit (s_ "tarry");
            lit (s_ "dark") ;; Star Dot ;; lit (s_ "stool");
            lit (s_ "coffee ground")]);
    (dizziness,
      any_of ["dizz"; "faint"; "lightheaded"; "passed out"; "weak and tired"]) ].

Close Scope string_scope.

(** The flags the table knows. *)
Definition known_flags : list str := map fst RED_FLAG_PATTERNS.

(** A stretch of [text] matches [pattern]. *)
Definition pattern_occurs (pattern : regex) (text : str) : Prop :=
  exists a p q, text = a ++ p ++ q /\ matches pattern p.

(** The trigger phrases of the four flags whose pattern is a plain
    alternation of phrases. *)
Definition literal_triggers : list (str * list string) :=
  [ (severe_pain,
      ["severe pain"; "excruciating"; "unbearable"; "extreme pain"; "terrible pain"]%string);
    (heavy_bleeding,
      ["heavy bleed"; "lots of blood"; "pouring"; "filling toilet"; "gushing"; "blood clot"]%string);
    (fever,
      ["fever"; "temperature"; "chills"; "hot and cold"]%string);
    (dizziness,
      ["dizz"; "faint"; "lightheaded"; "passed out"; "weak and tired"]%string) ].

Definition no_newline (x : str) : Prop := Forall (fun c => c <> 10) x.

Definition negations : list string := ["no"; "haven't"; "havent"]%string.
Definition stool_words : list string := ["bowel movement"; "poop"; "stool"]%string.
Definition day_counts : list string := ["3"; "4"; "5"; "6"; "7"]%string.

(** The loop of [check_for_red_flags] over the table's items. *)
Fixpoint scan_flags (items : list (str * regex)) (user_lower : str) : list str :=
  match items with
  | [] => []
  | (flag, pattern) :: rest =>
      if re_search pattern user_lower
      then flag :: scan_flags rest user_lower
      else scan_flags rest user_lower
  end.

Definition check_for_red_flags {U : CaseTables} (user_message : str) : list str :=
  let user_lower := lower user_message in
  scan_flags RED_FLAG_PATTERNS user_lower.

Definition black_dizzy_message : str := s_ "I'm passing black tarry stools and feel dizzy".

Definition critical : list str := [heavy_bleeding; black_stool; severe_pain; dizziness].
Definition non_urgent : list str := [prolonged_constipation; fever].

(** [flag in flags] *)
Definition member (flag : str) (flags : list str) : bool := existsb (str_eqb flag) flags.

Definition SIREN : str := [128680].            (* U+1F6A8 *)
Definition WARNING_SIGN : str := [9888; 65039]. (* U+26A0 U+FE0F *)
Definition RULE : str := repeat 61 60.          (* "=" * 60 *)

Definition CRITICAL_WARNING : str :=
  NL ++ NL ++ RULE ++ NL ++ SIREN ++ s_ " **URGENT MEDICAL ATTENTION NEEDED** " ++ SIREN ++ NL
  ++ RULE ++ NL ++ NL
  ++ s_ "Based on your symptoms, you need to see a doctor TODAY. Go to urgent care or the emergency room if:" ++ NL
  ++ s_ "- You're experiencing heavy bleeding" ++ NL
  ++ s_ "- You have black or tarry stools" ++ NL
  ++ s_ "- You feel dizzy or weak" ++ NL
  ++ s_ "- You have severe pain" ++ NL ++ NL
  ++ s_ "These could be signs of serious bleeding or other conditions that need immediate evaluation. Please don't wait.".

Definition NON_URGENT_WARNING : str :=
  NL ++ NL ++ WARNING_SIGN ++ s_ " **Please contact your doctor within 1-2 days:**" ++ NL ++ NL
  ++ s_ "The symptoms you've described should be evaluated by your healthcare provider to make sure everything is okay and to adjust your treatment plan if needed.".

Definition create_red_flag_warning (red_flags : list str) : str :=
  match red_flags with
  | [] => []
  | _ =>
      let has_critical := existsb (fun flag => member flag critical) red_flags in
      let has_non_urgent := existsb (fun flag => member flag non_urgent) red_flags in
      if has_critical then CRITICAL_WARNING
      else if has_non_urgent then NON_URGENT_WARNING
      else []
  end.

(* ================================================================== *)
(** * Reconciling a generated reply *)
(* ================================================================== *)

Definition warning_indicators : list str :=
  [ s_ "contact your doctor"; s_ "see a doctor"; s_ "medical attention";
    s_ "urgent care"; s_ "emergency"; s_ "healthcare provider" ].

Definition _has_warning {U : CaseTables} (response : str) : bool :=
  let response_lower := lower response in
  existsb (fun indicator => contains indicator response_lower) warning_indicators.

Definition _deduplicate_warnings (response : str) : str :=
  let parts := split WARNING_SIGN response in
  if (2 <? length parts)%nat then
    let main_content := hd [] parts in
    let last_warning := WARNING_SIGN ++ last parts [] in
    main_content ++ (NL ++ NL) ++ last_warning
  else response.

(** The reading of the specification: of a reply with several warning signs,
    the segment before the first sign, directly followed by the last sign
    and the text after it. *)
Definition first_segment (response : str) : str := hd [] (split WARNING_SIGN response).
Definition last_warning (response : str) : str :=
  WARNING_SIGN ++ last (split WARNING_SIGN response) [].
Definition deduplicate_as_stated (response : str) : str :=
  first_segment response ++ last_warning response.

Definition two_warnings : str :=
  s_ "a" ++ WARNING_SIGN ++ s_ "b" ++ WARNING_SIGN ++ s_ "c".

(** The reply [chat] makes of the generated text [response] and the flags of
    the patient's message: the two steps of [chat] between the call of the
    chain and the writing to the memory, as a function of their own. *)
Definition reconcile {U : CaseTables} (red_flags : list str) (response : str) : str :=
  let response := _deduplicate_warnings response in
  match red_flags with
  | [] => response
  | _ =>
      if negb (_has_warning response)
      then response ++ create_red_flag_warning red_flags
      else response
  end.

(* ================================================================== *)
(** * Conversation memory *)
(* ================================================================== *)

(** Modelled from the spec: a message of the session log (the module
    [conversation_memory] is not among the sources).  The spec's time stamp
    is left out: nothing below reads it. *)
Record Message := {
  role : str;
  content : str;
  red_flags_of : list str
}.

(** Modelled from the spec: ConversationMemory, the persisted logs by
    patient identifier and the in-memory log of the session in progress. *)
Record ConversationMemory := {
  storage : list (str * list Message);
  current_patient : option str;
  current_conversation : list Message
}.

Fixpoint stored_log (patient_id : str) (st : list (str * list Message)) : list Message :=
  match st with
  | [] => []
  | (p, log) :: st' => if str_eqb p patient_id then log else stored_log patient_id st'
  end.

Definition new_memory (st : list (str * list Message)) : ConversationMemory :=
  {| storage := st; current_patient := None; current_conversation := [] |}.

Definition is_current (patient_id : str) (m : ConversationMemory) : bool :=
  match current_patient m with
  | Some p => str_eqb p patient_id
  | None => false
  end.

(** Modelled from the spec: startSession creates the session or restores the
    persisted one; a second call for the same identifier changes nothing. *)
Definition start_conversation (patient_id : str) (m : ConversationMemory) : ConversationMemory :=
  if is_current patient_id m then m
  else {| storage := storage m;
          current_patient := Some patient_id;
          current_conversation := stored_log patient_id (storage m) |}.

(** Modelled from the spec: recentContext, the last [max_messages] entries of
    the session log, oldest first; it changes nothing. *)
Definition get_recent_context (patient_id : str) (max_messages : nat)
    (m : ConversationMemory) : list Message :=
  last_n max_messages
    (if is_current patient_id m then current_conversation m
     else stored_log patient_id (storage m)).

(** Modelled from the spec: addMessage appends one message to the in-memory
    log and touches no earlier entry. *)
Definition add_message (r c : str) (flags : list str) (m : ConversationMemory)
    : ConversationMemory :=
  {| storage := storage m;
     current_patient := current_patient m;
     current_conversation :=
       current_conversation m ++ [ {| role := r; content := c; red_flags_of := flags |} ] |}.

(* ================================================================== *)
(** * The chatbot *)
(* ================================================================== *)

(** An exception raised by a collaborator. *)
Inductive exn := Raised (what : str).

Inductive BaseMessage :=
| HumanMessage (text : str)
| AIMessage (text : str).

(** The values the prompt template is filled with. *)
Record PromptInput := {
  context : str;
  conversation_context : str;
  chat_history : list BaseMessage;
  question : str
}.

(** The retriever and the language model behind the chain of one turn. *)
Record Services := {
  retriever_invoke : str -> exn + list str;
  llm_invoke : PromptInput -> exn + str
}.

Record PatientChatbot := {
  patient_id : str;
  memory : ConversationMemory;
  recent_context : list Message
}.

(** [PatientChatbot.__init__], over the persisted storage found at start. *)
Definition init (st : list (str * list Message)) (pid : str) : PatientChatbot :=
  let m := start_conversation pid (new_memory st) in
  {| patient_id := pid;
     memory := m;
     recent_context := get_recent_context pid 6 m |}.

Definition format_docs (docs : list str) : str := join (NL ++ NL) docs.

Definition format_chat_history (messages : list Message) : list BaseMessage :=
  map (fun msg => if str_eqb (role msg) (s_ "user")
                  then HumanMessage (content msg)
                  else AIMessage (content msg)) messages.

Definition format_turn (context : str) (msg : Message) : str :=
  let r := if str_eqb (role msg) (s_ "user") then s_ "Patient" else s_ "You" in
  let c := if (200 <? length (content msg))%nat
           then firstn 200 (content msg) ++ s_ "..."
           else content msg in
  context ++ r ++ s_ ": " ++ c ++ NL.

Definition _format_conversation_context (self : PatientChatbot) : str :=
  match recent_context self with
  | [] => s_ "First conversation with this patient."
  | _ => fold_left format_turn (last_n 4 (recent_context self)) (s_ "Recent history:" ++ NL)
  end.

(** What the chain hands to the model for a question. *)
Definition prompt_input (self : PatientChatbot) (docs : list str)
    (user_message : str) (history : list Message) : PromptInput :=
  {| context := format_docs docs;
     conversation_context := _format_conversation_context self;
     chat_history := format_chat_history history;
     question := user_message |}.

(** [self.rag_chain.invoke]: retrieve, fill the prompt, generate. *)
Definition rag_chain_invoke (sv : Services) (self : PatientChatbot)
    (user_message : str) (history : list Message) : exn + str :=
  match retriever_invoke sv user_message with
  | inl e => inl e
  | inr docs => llm_invoke sv (prompt_input self docs user_message history)
  end.

Definition set_memory (self : PatientChatbot) (m : ConversationMemory) : PatientChatbot :=
  {| patient_id := patient_id self; memory := m; recent_context := recent_context self |}.

(** [PatientChatbot.chat]: the chatbot after the call, with the reply or the
    exception that left the call. *)
Definition chat {U : CaseTables} (sv : Services) (self : PatientChatbot)
    (user_message : str) : PatientChatbot * (exn + str) :=
  let red_flags := check_for_red_flags user_message in
  let current_session := current_conversation (memory self) in
  match rag_chain_invoke sv self user_message current_session with
  | inl e => (self, inl e)
  | inr response =>
      let response := _deduplicate_warnings response in
      let response :=
        match red_flags with
        | [] => response
        | _ =>
            if negb (_has_warning response)
            then response ++ create_red_flag_warning red_flags
            else response
        end in
      let m := add_message (s_ "user") user_message red_flags (memory self) in
      let m := add_message (s_ "assistant") response [] m in
      (set_memory self m, inr response)
  end.

(** A session: the turns in order, each with the services as they answer
    during that turn. *)
Fixpoint chat_all {U : CaseTables} (turns : list (Services * str))
    (self : PatientChatbot) : PatientChatbot :=
  match turns with
  | [] => self
  | (sv, user_message) :: rest => chat_all rest (fst (chat sv self user_message))
  end.

(** The prompt values of a turn that retrieved [docs]: what [chat] has the
    chain fill the prompt with. *)
Definition turn_request (self : PatientChatbot) (docs : list str) (user_message : str)
    : PromptInput :=
  prompt_input self docs user_message (current_conversation (memory self)).

(** The reading of the specification: the conversation context of a turn,
    formatted from the recent context fetched from the memory at that
    turn. *)
Definition conversation_context_as_stated (self : PatientChatbot) : str :=
  _format_conversation_context
    {| patient_id := patient_id self;
       memory := memory self;
       recent_context := get_recent_context (patient_id self) 6 (memory self) |}.

Definition user_turn {U : CaseTables} (user_message : str) : Message :=
  {| role := s_ "user"; content := user_message;
     red_flags_of := check_for_red_flags user_message |}.

Definition assistant_turn (reply : str) : Message :=
  {| role := s_ "assistant"; content := reply; red_flags_of := [] |}.

(** Services that retrieve nothing and answer with a fixed text. *)
Definition answering (reply : str) : Services :=
  {| retriever_invoke := fun _ => inr [];
     llm_invoke := fun _ => inr reply |}.

(** A model that answers with the conversation context it was given. *)
Definition echo_context : Services :=
  {| retriever_invoke := fun _ => inr [];
     llm_invoke := fun p => inr (conversation_context p) |}.

(** A retriever that works and a model that raises. *)
Definition model_down : Services :=
  {| retriever_invoke := fun _ => inr [s_ "Fiber helps."];
     llm_invoke := fun _ => inl (Raised (s_ "overloaded")) |}.

Definition new_patient : PatientChatbot := init [] (s_ "p1").

Definition after_first_turn : PatientChatbot :=
  fst (@chat ascii_tables echo_context new_patient (s_ "hi")).

(* ================================================================== *)
(** * Facts about strings *)
(* ================================================================== *)

Lemma str_eqb_eq (a b : str) : str_eqb a b = true <-> a = b.
Proof.
  revert b; induction a as [|x a IH]; intros [|y b]; simpl; split;
    try congruence; try reflexivity.
  - intros H. apply andb_true_iff in H as [Hx Hab].
    apply Z.eqb_eq in Hx. apply IH in Hab. congruence.
  - intros H. injection H as -> ->. rewrite Z.eqb_refl. now apply IH.
Qed.

Lemma str_eqb_refl (a : str) : str_eqb a a = true.
Proof. now apply str_eqb_eq. Qed.

Lemma member_In (flag : str) (flags : list str) : member flag flags = true <-> In flag flags.
Proof.
  unfold member. rewrite existsb_exists. split.
  - intros (x & Hin & Heq). apply str_eqb_eq in Heq. now subst.
  - intros Hin. exists flag. split; [assumption | apply str_eqb_refl].
Qed.

Lemma startswith_spec (p s : str) : startswith p s = true <-> exists t, s = p ++ t.
Proof.
  revert s; induction p as [|x p IH]; intros s; simpl.
  - split; [intros _; now exists s | reflexivity].
  - destruct s as [|y s].
    + split; [discriminate | intros [t Ht]; discriminate].
    + rewrite andb_true_iff, Z.eqb_eq, IH. split.
      * intros [-> [t ->]]. now exists t.
      * intros [t Ht]. injection Ht as -> ->. split; [reflexivity | now exists t].
Qed.

Lemma startswith_app (p t : str) : startswith p (p ++ t) = true.
Proof. apply startswith_spec. now exists t. Qed.

Lemma startswith_grow (p s t : str) : startswith p s = true -> startswith p (s ++ t) = true.
Proof.
  rewrite !startswith_spec. intros [u ->]. exists (u ++ t). now rewrite app_assoc.
Qed.

Lemma contains_spec (p s : str) : contains p s = true <-> exists a b, s = a ++ p ++ b.
Proof.
  induction s as [|c s IH].
  - simpl. rewrite orb_false_r, startswith_spec. split.
    + intros [t Ht]. now exists [], t.
    + intros (a & b & H). destruct a as [|x a]; [| discriminate]. now exists b.
  - cbn [contains]. rewrite orb_true_iff, startswith_spec, IH. split.
    + intros [[t Ht] | (a & b & Hs)].
      * now exists [], t.
      * exists (c :: a), b. now rewrite Hs.
    + intros (a & b & H). destruct a as [|x a].
      * left. now exists b.
      * right. injection H as -> ->. now exists a, b.
Qed.

Lemma contains_app (a p b : str) : contains p (a ++ p ++ b) = true.
Proof. apply contains_spec. now exists a, b. Qed.

Lemma contains_cons_false (p : str) (c : Z) (s : str) :
  contains p (c :: s) = false -> startswith p (c :: s) = false /\ contains p s = false.
Proof. cbn [contains]. now rewrite orb_false_iff. Qed.

Lemma occurrences_zero (p s : str) : p <> [] -> contains p s = false -> occurrences p s = 0%nat.
Proof.
  intros Hp. induction s as [|c s IH]; [reflexivity|].
  intros H. apply contains_cons_false in H as [H1 H2].
  cbn [occurrences]. rewrite H1, (IH H2). reflexivity.
Qed.

(* ================================================================== *)
(** * Facts about the matcher *)
(* ================================================================== *)

Lemma nullable_spec (r : regex) : nullable r = true <-> matches r [].
Proof.
  induction r as [| | c | | r1 IH1 r2 IH2 | r1 IH1 r2 IH2 | r IH]; simpl.
  - split; [discriminate | intros H; inversion H].
  - split; [constructor | reflexivity].
  - split; [discriminate | intros H; inversion H].
  - split; [discriminate | intros H; inversion H].
  - rewrite andb_true_iff, IH1, IH2. split.
    + intros [H1 H2]. change (@nil Z) with (@nil Z ++ []). now constructor.
    + intros H. inversion H as [| | |? ? s1 s2 H1 H2 Hr Hs| | | |]; subst.
      apply app_eq_nil in Hs as [-> ->]. now split.
  - rewrite orb_true_iff, IH1, IH2. split.
    + intros [H|H]; [now apply MAltL | now apply MAltR].
    + intros H. inversion H; subst; [now left | now right].
  - split; [constructor | reflexivity].
Qed.

(** A non-empty match of [Star r] starts with a non-empty match of [r]. *)
Lemma star_cons (r : regex) (c : Z) (s : str) :
  matches (Star r) (c :: s) ->
  exists s1 s2, s = s1 ++ s2 /\ matches r (c :: s1) /\ matches (Star r) s2.
Proof.
  intros H. remember (Star r) as r' eqn:Er. remember (c :: s) as t eqn:Et.
  revert s Et. induction H as [| | | | | | |r0 s1 s2 H1 _ H2 IH2]; try discriminate.
  intros s Et. injection Er as ->. destruct s1 as [|x s1].
  - simpl in Et. now apply IH2.
  - injection Et as -> <-. now exists s1, s2.
Qed.

Lemma deriv_spec (c : Z) (r : regex) (s : str) :
  matches (deriv c r) s <-> matches r (c :: s).
Proof.
  revert s. induction r as [| | d | | r1 IH1 r2 IH2 | r1 IH1 r2 IH2 | r IH]; intros s; simpl.
  - split; intros H; inversion H.
  - split; intros H; inversion H.
  - destruct (Z.eqb_spec c d) as [->|Hne]; split; intros H; inversion H; subst;
      try constructor; congruence.
  - destruct (dot_ok c) eqn:E; split; intros H; inversion H; subst;
      try (now constructor); congruence.
  - assert (Hcat : matches (Cat (deriv c r1) r2) s ->  matches (Cat r1 r2) (c :: s)).
    { intros H. inversion H as [| | |? ? s1 s2 H1 H2 Hr Hs| | | |]; subst.
      apply IH1 in H1. change (c :: s1 ++ s2) with ((c :: s1) ++ s2). now constructor. }
    assert (Hinv : matches (Cat r1 r2) (c :: s) ->
                   matches (Cat (deriv c r1) r2) s \/
                   (matches r1 [] /\ matches r2 (c :: s))).
    { intros H. inversion H as [| | |? ? s1 s2 H1 H2 Hr Hs| | | |]; subst.
      destruct s1 as [|x s1].
      - right. simpl in Hs. subst s2. now split.
      - left. injection Hs as -> <-. constructor; [now apply IH1 | assumption]. }
    destruct (nullable r1) eqn:En.
    + split.
      * intros H. inversion H; subst; [now apply Hcat |].
        change (c :: s) with ([] ++ c :: s). constructor;
          [now apply nullable_spec | now apply IH2].
      * intros H. apply Hinv in H as [H | [_ H]]; [now apply MAltL |].
        apply MAltR. now apply IH2.
    + split; [exact Hcat |].
      intros H. apply Hinv in H as [H | [H _]]; [assumption |].
      apply nullable_spec in H. congruence.
  - split; intros H; inversion H; subst;
      solve [apply MAltL; now apply IH1 | apply MAltR; now apply IH2].
  - split.
    + intros H. inversion H as [| | |? ? s1 s2 H1 H2 Hr Hs| | | |]; subst.
      apply IH in H1. change (c :: s1 ++ s2) with ((c :: s1) ++ s2). now constructor.
    + intros H. apply star_cons in H as (s1 & s2 & -> & H1 & H2).
      constructor; [now apply IH | assumption].
Qed.

(** [re_match] finds a prefix that the pattern matches, and only then. *)
Lemma re_match_spec (r : regex) (s : str) :
  re_match r s = true <-> exists p q, s = p ++ q /\ matches r p.
Proof.
  revert r. induction s as [|c s IH]; intros r; cbn [re_match].
  - rewrite orb_false_r, nullable_spec. split.
    + intros H. now exists [], [].
    + intros (p & q & Hs & H). symmetry in Hs. apply app_eq_nil in Hs as [-> _]. exact H.
  - rewrite orb_true_iff, nullable_spec, IH. split.
    + intros [H | (p & q & -> & H)].
      * now exists [], (c :: s).
      * exists (c :: p), q. split; [reflexivity | now apply deriv_spec].
    + intros (p & q & Hs & H). destruct p as [|x p].
      * now left.
      * right. injection Hs as -> ->. exists p, q. split; [reflexivity | now apply deriv_spec].
Qed.

(** [re_search] finds a stretch of the text that the pattern matches, and
    only then. *)
Lemma re_search_spec (r : regex) (s : str) :
  re_search r s = true <-> exists a p q, s = a ++ p ++ q /\ matches r p.
Proof.
  induction s as [|c s IH]; cbn [re_search].
  - rewrite orb_false_r, re_match_spec. split.
    + intros (p & q & Hs & H). now exists [], p, q.
    + intros (a & p & q & Hs & H). destruct a; [| discriminate]. now exists p, q.
  - rewrite orb_true_iff, re_match_spec, IH. split.
    + intros [(p & q & Hs & H) | (a & p & q & -> & H)].
      * now exists [], p, q.
      * now exists (c :: a), p, q.
    + intros (a & p & q & Hs & H). destruct a as [|x a].
      * left. now exists p, q.
      * right. injection Hs as -> ->. now exists a, p, q.
Qed.

(* ================================================================== *)
(** * Facts about lower-casing *)
(* ================================================================== *)

Lemma is_asciib_spec (w : str) : forallb is_asciib w = true -> Forall is_ascii w.
Proof.
  rewrite forallb_forall, Forall_forall. intros H c Hc. specialize (H c Hc).
  unfold is_asciib in H. apply andb_true_iff in H as [H1 H2]. unfold is_ascii. lia.
Qed.

Section LowerFacts.
Context {U : CaseTables}.

Lemma lower_at_ascii (before after : str) (c : Z) :
  is_ascii c -> lower_at before c after = [ascii_lower c].
Proof.
  intros Hc. unfold lower_at, CAPITAL_SIGMA, is_ascii in *.
  destruct (Z.eqb_spec c 931); [lia | now apply to_lower_ascii].
Qed.

Lemma lower_from_ascii (w : str) : forall before rest,
  Forall is_ascii w ->
  lower_from before (w ++ rest) = map ascii_lower w ++ lower_from (rev w ++ before) rest.
Proof.
  induction w as [|c w IH]; intros before rest Hw; [reflexivity|].
  inversion Hw as [|? ? Hc Hw']; subst. cbn [app lower_from map rev].
  rewrite lower_at_ascii by assumption. rewrite IH by assumption.
  now rewrite <- app_assoc.
Qed.

Lemma lower_ascii (w : str) : Forall is_ascii w -> lower w = map ascii_lower w.
Proof.
  intros Hw. unfold lower. rewrite <- (app_nil_r w) at 1.
  rewrite lower_from_ascii by assumption. simpl. apply app_nil_r.
Qed.

Lemma lower_from_app (x : str) : forall before rest,
  exists x', lower_from before (x ++ rest) = x' ++ lower_from (rev x ++ before) rest.
Proof.
  induction x as [|c x IH]; intros before rest.
  - now exists [].
  - destruct (IH (c :: before) rest) as [x' Hx'].
    exists (lower_at before c (x ++ rest) ++ x').
    cbn [app lower_from rev]. rewrite Hx'. now rewrite <- !app_assoc.
Qed.

(** An ASCII phrase without capitals survives lower-casing wherever it
    stands. *)
Lemma lower_keeps_phrase (a w b : str) :
  Forall is_ascii w -> map ascii_lower w = w ->
  contains w (lower (a ++ w ++ b)) = true.
Proof.
  intros Hw Hfix. unfold lower.
  destruct (lower_from_app a [] (w ++ b)) as [a' ->].
  rewrite lower_from_ascii by assumption. rewrite Hfix. apply contains_app.
Qed.

Lemma lower_at_lowered (before after : str) (c : Z) :
  Forall is_lowered (lower_at before c after).
Proof.
  unfold lower_at. destruct (Z.eqb_spec c CAPITAL_SIGMA) as [->|Hc].
  - constructor; [| constructor]. destruct to_lower_sigma as [Hf Hs].
    destruct (final_sigma before after); split; try assumption; discriminate.
  - apply Forall_forall. intros d Hd. now apply (to_lower_stable c d).
Qed.

Lemma lower_from_lowered (s : str) : forall before, Forall is_lowered (lower_from before s).
Proof.
  induction s as [|c s IH]; intros before; cbn [lower_from]; [constructor|].
  apply Forall_app. split; [apply lower_at_lowered | apply IH].
Qed.

Lemma lower_from_fixed (s : str) : forall before,
  Forall is_lowered s -> lower_from before s = s.
Proof.
  induction s as [|c s IH]; intros before Hs; [reflexivity|].
  inversion Hs as [|? ? [Hc Hfix] Hs']; subst. cbn [lower_from].
  unfold lower_at. destruct (Z.eqb_spec c CAPITAL_SIGMA); [contradiction|].
  rewrite Hfix, IH by assumption. reflexivity.
Qed.

(** Lower-casing twice is lower-casing once. *)
Lemma lower_idempotent (s : str) : lower (lower s) = lower s.
Proof. unfold lower at 1. apply lower_from_fixed, lower_from_lowered. Qed.
End LowerFacts.


(* ================================================================== *)
(** * The classifier *)
(* ================================================================== *)

Lemma known_flags_eq :
  known_flags =
  [severe_pain; heavy_bleeding; fever; prolonged_constipation; black_stool; dizziness].
Proof. reflexivity. Qed.

Lemma scan_flags_In (items : list (str * regex)) (text flag : str) :
  In flag (scan_flags items text) <->
  exists pattern, In (flag, pattern) items /\ re_search pattern text = true.
Proof.
  induction items as [|[f r] items IH]; simpl.
  - split; [intros [] | intros (? & [] & _)].
  - destruct (re_search r text) eqn:E; simpl; rewrite IH; split.
    + intros [<- | (p & Hin & Hp)]; [exists r | exists p]; auto.
    + intros (p & [Heq | Hin] & Hp); [left; congruence | right; now exists p].
    + intros (p & Hin & Hp). exists p. auto.
    + intros (p & [Heq | Hin] & Hp); [| now exists p].
      injection Heq as -> ->. congruence.
Qed.

Lemma scan_flags_nil (items : list (str * regex)) (text : str) :
  scan_flags items text = [] <->
  forall flag pattern, In (flag, pattern) items -> re_search pattern text = false.
Proof.
  induction items as [|[f r] items IH]; simpl.
  - split; [intros _ ? ? [] | reflexivity].
  - destruct (re_search r text) eqn:E.
    + split; [discriminate |]. intros H. specialize (H f r (or_introl eq_refl)). congruence.
    + rewrite IH. split.
      * intros H flag pattern [Heq | Hin]; [congruence | now apply (H flag)].
      * intros H flag pattern Hin. apply (H flag). now right.
Qed.

Lemma scan_flags_incl (items : list (str * regex)) (text : str) :
  incl (scan_flags items text) (map fst items).
Proof.
  intros flag H. apply scan_flags_In in H as (p & Hin & _).
  change flag with (fst (flag, p)). now apply in_map.
Qed.

(** The classifier answers with flags of the table only. *)
Lemma check_for_red_flags_known {U : CaseTables} (user_message : str) :
  incl (check_for_red_flags user_message) known_flags.
Proof. apply scan_flags_incl. Qed.

(** C7.  The classifier is a function of the message alone and answers for
    every message with flags of the table; a message whose lower-cased text
    no pattern of the table matches anywhere gets the empty list, and only
    such a message does; and the answer is the answer for the lower-cased
    message. *)
Theorem check_for_red_flags_total {U : CaseTables} (user_message : str) :
  (exists flags, check_for_red_flags user_message = flags /\ incl flags known_flags) /\
  (check_for_red_flags user_message = [] <->
   forall flag pattern, In (flag, pattern) RED_FLAG_PATTERNS ->
                        ~ pattern_occurs pattern (lower user_message)) /\
  check_for_red_flags (lower user_message) = check_for_red_flags user_message.
Proof.
  split; [| split].
  - eexists. split; [reflexivity | apply check_for_red_flags_known].
  - unfold check_for_red_flags. rewrite scan_flags_nil. split.
    + intros H flag pattern Hin Hocc. apply re_search_spec in Hocc.
      rewrite (H flag pattern Hin) in Hocc. discriminate.
    + intros H flag pattern Hin. destruct (re_search pattern _) eqn:E; [| reflexivity].
      exfalso. apply (H flag pattern Hin). now apply re_search_spec.
  - unfold check_for_red_flags. now rewrite lower_idempotent.
Qed.

(** C6.  The message about black tarry stools and dizziness is classified as
    black stool and dizziness, nothing else, and the warning composed for
    these two flags is the critical one. *)
Theorem black_tarry_dizzy_scenario {U : CaseTables} :
  check_for_red_flags black_dizzy_message = [black_stool; dizziness] /\
  create_red_flag_warning [black_stool; dizziness] = CRITICAL_WARNING.
Proof.
  split; [| reflexivity].
  unfold check_for_red_flags. rewrite lower_ascii.
  - vm_compute. reflexivity.
  - apply is_asciib_spec. vm_compute. reflexivity.
Qed.

(* ================================================================== *)
(** * The warning composer *)
(* ================================================================== *)

Lemma has_tier_spec (tier red_flags : list str) :
  existsb (fun flag => member flag tier) red_flags = true <->
  exists flag, In flag red_flags /\ In flag tier.
Proof.
  rewrite existsb_exists. split; intros (flag & Hin & H); exists flag; split;
    try assumption; now apply member_In.
Qed.

Lemma has_tier_false (tier red_flags : list str) :
  ~ (exists flag, In flag red_flags /\ In flag tier) ->
  existsb (fun flag => member flag tier) red_flags = false.
Proof.
  intros H. destruct (existsb _ red_flags) eqn:E; [| reflexivity].
  exfalso. apply H. now apply has_tier_spec.
Qed.

Lemma warning_templates :
  CRITICAL_WARNING <> [] /\ NON_URGENT_WARNING <> [] /\ CRITICAL_WARNING <> NON_URGENT_WARNING.
Proof. repeat split; discriminate. Qed.

Lemma create_red_flag_warning_neither (red_flags : list str) :
  ~ (exists flag, In flag red_flags /\ In flag critical) ->
  ~ (exists flag, In flag red_flags /\ In flag non_urgent) ->
  create_red_flag_warning red_flags = [].
Proof.
  intros Hc Hn. apply has_tier_false in Hc. apply has_tier_false in Hn.
  unfold create_red_flag_warning. destruct red_flags; [reflexivity |]. now rewrite Hc, Hn.
Qed.

(** C2.  A critical flag among the flags gives the critical warning, whatever
    else is there; without one, a non-urgent flag gives the follow-up
    warning; with neither the warning is empty. *)
Theorem create_red_flag_warning_tiers (red_flags : list str) :
  ((exists flag, In flag red_flags /\ In flag critical) ->
   create_red_flag_warning red_flags = CRITICAL_WARNING) /\
  (~ (exists flag, In flag red_flags /\ In flag critical) ->
   (exists flag, In flag red_flags /\ In flag non_urgent) ->
   create_red_flag_warning red_flags = NON_URGENT_WARNING) /\
  (~ (exists flag, In flag red_flags /\ In flag critical) ->
   ~ (exists flag, In flag red_flags /\ In flag non_urgent) ->
   create_red_flag_warning red_flags = []).
Proof.
  split; [| split].
  - intros H. pose proof H as (flag & Hin & _).
    apply has_tier_spec in H. unfold create_red_flag_warning.
    destruct red_flags; [destruct Hin |]. now rewrite H.
  - intros Hc H. pose proof H as (flag & Hin & _).
    apply has_tier_false in Hc. apply has_tier_spec in H. unfold create_red_flag_warning.
    destruct red_flags; [destruct Hin |]. now rewrite Hc, H.
  - apply create_red_flag_warning_neither.
Qed.

(** C10.  Flags that are not in the table, however many, compose no warning:
    the answer is the empty text. *)
Theorem create_red_flag_warning_unknown (red_flags : list str) :
  red_flags <> [] ->
  (forall flag, In flag red_flags -> ~ In flag known_flags) ->
  create_red_flag_warning red_flags = [].
Proof.
  intros _ H. apply create_red_flag_warning_neither;
    intros (flag & Hin & Htier); apply (H flag Hin); rewrite known_flags_eq;
    simpl in Htier |- *; intuition.
Qed.

Lemma create_red_flag_warning_tiers_witness :
  create_red_flag_warning [fever; dizziness; fever] = CRITICAL_WARNING /\
  create_red_flag_warning [fever; s_ "itching"] = NON_URGENT_WARNING /\
  create_red_flag_warning [s_ "itching"] = [].
Proof.
  split; [| split].
  - apply (proj1 (create_red_flag_warning_tiers [fever; dizziness; fever])).
    exists dizziness. split; simpl; auto.
  - apply (proj1 (proj2 (create_red_flag_warning_tiers [fever; s_ "itching"]))).
    + intros (flag & Hin & Htier). simpl in Hin, Htier.
      repeat match goal with H : _ \/ _ |- _ => destruct H end; subst; try discriminate;
        contradiction.
    + exists fever. split; simpl; auto.
  - apply (proj2 (proj2 (create_red_flag_warning_tiers [s_ "itching"])));
      intros (flag & Hin & Htier); simpl in Hin, Htier;
      repeat match goal with H : _ \/ _ |- _ => destruct H end; subst; try discriminate;
        contradiction.
Defined.

Lemma create_red_flag_warning_unknown_witness :
  create_red_flag_warning [s_ "itching"; s_ "bloating"] = [].
Proof.
  apply (create_red_flag_warning_unknown [s_ "itching"; s_ "bloating"]).
  - discriminate.
  - intros flag Hin Hk. rewrite known_flags_eq in Hk. simpl in Hin, Hk.
    repeat match goal with H : _ \/ _ |- _ => destruct H end; subst; try discriminate;
      contradiction.
Defined.

(* ================================================================== *)
(** * Facts about [partition] and [split] *)
(* ================================================================== *)

Section Split.
Variable sep : str.
Hypothesis sep_nonempty : sep <> [].

Lemma startswith_nil : startswith sep [] = false.
Proof. destruct sep; [contradiction | reflexivity]. Qed.

Lemma partition_none (s : str) : partition sep s = None <-> contains sep s = false.
Proof.
  induction s as [|c s IH]; cbn [partition contains].
  - rewrite startswith_nil. simpl. tauto.
  - destruct (startswith sep (c :: s)); simpl; [split; discriminate |].
    rewrite <- IH. destruct (partition sep s) as [[b a]|]; split; congruence.
Qed.

(** [partition] cuts at the first occurrence. *)
Lemma partition_some (s b a : str) :
  partition sep s = Some (b, a) -> s = b ++ sep ++ a /\ contains sep b = false.
Proof.
  revert b a. induction s as [|c s IH]; intros b a; cbn [partition].
  - rewrite startswith_nil. discriminate.
  - destruct (startswith sep (c :: s)) eqn:E.
    + intros H. injection H as <- <-. apply startswith_spec in E as [t Ht].
      rewrite Ht, skipn_app, skipn_all, Nat.sub_diag. simpl.
      split; [reflexivity |]. now rewrite startswith_nil.
    + destruct (partition sep s) as [[b' a']|] eqn:Ep; [| discriminate].
      intros H. injection H as <- <-. destruct (IH b' a' eq_refl) as [-> Hb'].
      split; [reflexivity |]. cbn [contains]. rewrite Hb', orb_false_r.
      destruct (startswith sep (c :: b')) eqn:E'; [| reflexivity].
      apply (startswith_grow _ _ (sep ++ a')) in E'. simpl in E, E'. congruence.
Qed.

Lemma partition_shorter (s b a : str) :
  partition sep s = Some (b, a) -> (length a < length s)%nat.
Proof.
  intros H. apply partition_some in H as [-> _]. rewrite !length_app.
  destruct sep; [contradiction | simpl; lia].
Qed.

Lemma split_rounds_enough (n : nat) : forall m s,
  (length s <= n)%nat -> (length s <= m)%nat ->
  split_rounds n sep s = split_rounds m sep s.
Proof.
  induction n as [|n IH]; intros m s Hn Hm.
  - destruct s; [| simpl in Hn; lia]. destruct m; [reflexivity |].
    simpl. now rewrite startswith_nil.
  - destruct m as [|m].
    + destruct s; [| simpl in Hm; lia]. simpl. now rewrite startswith_nil.
    + cbn [split_rounds]. destruct (partition sep s) as [[b a]|] eqn:Ep; [| reflexivity].
      apply partition_shorter in Ep. f_equal. apply IH; lia.
Qed.

(** The equation of the splitting loop. *)
Lemma split_unfold (s : str) :
  split sep s = match partition sep s with
                | None => [s]
                | Some (b, a) => b :: split sep a
                end.
Proof.
  unfold split. destruct s as [|c s].
  - simpl. now rewrite startswith_nil.
  - cbn [length split_rounds]. destruct (partition sep (c :: s)) as [[b a]|] eqn:Ep;
      [| reflexivity].
    apply partition_shorter in Ep. simpl in Ep. f_equal. apply split_rounds_enough; lia.
Qed.

Lemma split_free (s : str) : contains sep s = false -> split sep s = [s].
Proof. intros H. apply partition_none in H. now rewrite split_unfold, H. Qed.

Lemma split_nonempty (s : str) : (1 <= length (split sep s))%nat.
Proof.
  rewrite split_unfold. destruct (partition sep s) as [[b a]|]; simpl; lia.
Qed.

Lemma split_single (s : str) : length (split sep s) = 1%nat -> contains sep s = false.
Proof.
  rewrite split_unfold. destruct (partition sep s) as [[b a]|] eqn:Ep.
  - pose proof (split_nonempty a). simpl. lia.
  - intros _. now apply partition_none.
Qed.

(** No part of a split text contains the separator. *)
Lemma split_parts_free (s : str) : Forall (fun p => contains sep p = false) (split sep s).
Proof.
  remember (length s) as n eqn:Hn. revert s Hn.
  induction n as [n IH] using lt_wf_ind. intros s ->.
  rewrite split_unfold. destruct (partition sep s) as [[b a]|] eqn:Ep.
  - pose proof (partition_shorter _ _ _ Ep) as Hlt.
    apply partition_some in Ep as [_ Hb]. constructor; [exact Hb |].
    now apply (IH (length a)).
  - constructor; [now apply partition_none | constructor].
Qed.
End Split.

(* ================================================================== *)
(** * De-duplication of warnings *)
(* ================================================================== *)

Lemma WARNING_SIGN_nonempty : WARNING_SIGN <> [].
Proof. discriminate. Qed.

(** The two code points of the warning sign differ, so an occurrence cannot
    begin inside another one or be completed by the text that follows. *)
Lemma startswith_sign_grow (c : Z) (b t : str) :
  startswith WARNING_SIGN (c :: b) = false ->
  startswith WARNING_SIGN t = true \/ t = NL ++ NL ->
  startswith WARNING_SIGN (c :: b ++ t) = false.
Proof.
  intros Hb Ht. destruct b as [|d b]; [| exact Hb].
  destruct Ht as [Ht | ->].
  - destruct t as [|x t]; [discriminate |].
    cbn [startswith WARNING_SIGN app] in Ht |- *.
    apply andb_true_iff in Ht as [Hx _]. apply Z.eqb_eq in Hx. subst x.
    destruct (9888 =? c); reflexivity.
  - cbn [startswith WARNING_SIGN NL app]. destruct (9888 =? c); reflexivity.
Qed.

Lemma partition_sign_first (b a : str) :
  contains WARNING_SIGN b = false ->
  partition WARNING_SIGN (b ++ WARNING_SIGN ++ a) = Some (b, a).
Proof.
  induction b as [|c b IH]; intros Hb; [reflexivity |].
  apply contains_cons_false in Hb as [Hc Hb].
  cbn [app partition].
  rewrite (startswith_sign_grow c b (WARNING_SIGN ++ a) Hc (or_introl eq_refl)).
  now rewrite (IH Hb).
Qed.

Lemma split_sign_first (b a : str) :
  contains WARNING_SIGN b = false ->
  split WARNING_SIGN (b ++ WARNING_SIGN ++ a) = b :: split WARNING_SIGN a.
Proof.
  intros Hb. rewrite split_unfold by exact WARNING_SIGN_nonempty.
  now rewrite partition_sign_first.
Qed.

Lemma contains_sign_blank_line (b : str) :
  contains WARNING_SIGN b = false -> contains WARNING_SIGN (b ++ NL ++ NL) = false.
Proof.
  induction b as [|c b IH]; intros Hb; [reflexivity |].
  apply contains_cons_false in Hb as [Hc Hb].
  cbn [app contains].
  rewrite (startswith_sign_grow c b (NL ++ NL) Hc (or_intror eq_refl)).
  now rewrite (IH Hb).
Qed.

Lemma occurrences_sign_first (b a : str) :
  contains WARNING_SIGN b = false ->
  occurrences WARNING_SIGN (b ++ WARNING_SIGN ++ a) = S (occurrences WARNING_SIGN a).
Proof.
  induction b as [|c b IH]; intros Hb.
  - cbn [app WARNING_SIGN occurrences]. destruct a; reflexivity.
  - apply contains_cons_false in Hb as [Hc Hb].
    cbn [app occurrences].
    rewrite (startswith_sign_grow c b (WARNING_SIGN ++ a) Hc (or_introl eq_refl)).
    now rewrite (IH Hb).
Qed.

(** One part more than there are warning signs. *)
Lemma length_split_sign (s : str) :
  length (split WARNING_SIGN s) = S (occurrences WARNING_SIGN s).
Proof.
  remember (length s) as n eqn:Hn. revert s Hn.
  induction n as [n IH] using lt_wf_ind. intros s ->.
  rewrite split_unfold by exact WARNING_SIGN_nonempty.
  destruct (partition WARNING_SIGN s) as [[b a]|] eqn:Ep.
  - pose proof (partition_shorter _ WARNING_SIGN_nonempty _ _ _ Ep) as Hlt.
    apply partition_some in Ep as [-> Hb]; [| exact WARNING_SIGN_nonempty].
    rewrite occurrences_sign_first by exact Hb. simpl. f_equal.
    now apply (IH (length a)).
  - apply partition_none in Ep; [| exact WARNING_SIGN_nonempty].
    now rewrite occurrences_zero by (exact WARNING_SIGN_nonempty || exact Ep).
Qed.

(** A text of two parts or more ends with a warning sign and the last part. *)
Lemma split_sign_last (s : str) :
  (2 <= length (split WARNING_SIGN s))%nat ->
  exists mid t, s = mid ++ WARNING_SIGN ++ t /\
                contains WARNING_SIGN t = false /\
                last (split WARNING_SIGN s) [] = t.
Proof.
  remember (length s) as n eqn:Hn. revert s Hn.
  induction n as [n IH] using lt_wf_ind. intros s -> Hlen.
  rewrite split_unfold in Hlen |- * by exact WARNING_SIGN_nonempty.
  destruct (partition WARNING_SIGN s) as [[b a]|] eqn:Ep; [| simpl in Hlen; lia].
  pose proof (partition_shorter _ WARNING_SIGN_nonempty _ _ _ Ep) as Hlt.
  apply partition_some in Ep as [-> Hb]; [| exact WARNING_SIGN_nonempty].
  pose proof (split_nonempty _ WARNING_SIGN_nonempty a) as Hne.
  destruct (Nat.eq_dec (length (split WARNING_SIGN a)) 1) as [H1 | H1].
  - pose proof (split_single _ WARNING_SIGN_nonempty a H1) as Ha.
    exists b, a. rewrite (split_free _ WARNING_SIGN_nonempty a Ha). auto.
  - destruct (IH (length a) Hlt a eq_refl) as (mid & t & Ha & Ht & Hlast); [lia |].
    exists (b ++ WARNING_SIGN ++ mid), t. split; [| split; [exact Ht |]].
    + rewrite Ha. now rewrite <- !app_assoc.
    + destruct (split WARNING_SIGN a) as [|p ps] eqn:Es; [simpl in Hne; lia |].
      exact Hlast.
Qed.

Lemma Forall_hd {A} (P : A -> Prop) (d : A) (l : list A) : P d -> Forall P l -> P (hd d l).
Proof. intros Hd Hl. destruct Hl; assumption. Qed.

Lemma Forall_last {A} (P : A -> Prop) (d : A) (l : list A) : P d -> Forall P l -> P (last l d).
Proof.
  intros Hd Hl. induction Hl as [|x l Hx Hl IH]; [exact Hd |].
  destruct l; [exact Hx | exact IH].
Qed.

(** A reply with at most one warning sign is left as it is. *)
Lemma deduplicate_few (response : str) :
  (occurrences WARNING_SIGN response <= 1)%nat -> _deduplicate_warnings response = response.
Proof.
  intros H. unfold _deduplicate_warnings. rewrite length_split_sign.
  destruct (Nat.ltb_spec 2 (S (occurrences WARNING_SIGN response))); [lia | reflexivity].
Qed.

Lemma deduplicate_one (p t : str) :
  contains WARNING_SIGN p = false -> contains WARNING_SIGN t = false ->
  _deduplicate_warnings (p ++ WARNING_SIGN ++ t) = p ++ WARNING_SIGN ++ t.
Proof.
  intros Hp Ht. apply deduplicate_few.
  rewrite occurrences_sign_first by exact Hp.
  now rewrite occurrences_zero by (exact WARNING_SIGN_nonempty || exact Ht).
Qed.

(** C4.  De-duplicating a de-duplicated reply changes nothing. *)
Theorem deduplicate_idempotent (x : str) :
  _deduplicate_warnings (_deduplicate_warnings x) = _deduplicate_warnings x.
Proof.
  unfold _deduplicate_warnings at 2 3.
  destruct (2 <? length (split WARNING_SIGN x))%nat eqn:E;
    [| unfold _deduplicate_warnings; now rewrite E].
  pose proof (split_parts_free _ WARNING_SIGN_nonempty x) as Hfree.
  cbv zeta. rewrite !(app_assoc _ (NL ++ NL)).
  apply deduplicate_one.
  - apply contains_sign_blank_line.
    now apply (Forall_hd (fun p => contains WARNING_SIGN p = false)).
  - now apply (Forall_last (fun p => contains WARNING_SIGN p = false)).
Qed.

(** C8, as stated, fails: a reply with two warning signs comes back with a
    blank line between the first segment and the last warning. *)
Lemma deduplicate_not_as_stated :
  (1 < occurrences WARNING_SIGN two_warnings)%nat /\
  _deduplicate_warnings two_warnings = s_ "a" ++ NL ++ NL ++ WARNING_SIGN ++ s_ "c" /\
  deduplicate_as_stated two_warnings = s_ "a" ++ WARNING_SIGN ++ s_ "c" /\
  _deduplicate_warnings two_warnings <> deduplicate_as_stated two_warnings.
Proof.
  split; [vm_compute; lia |]. split; [reflexivity |]. split; [reflexivity |].
  vm_compute. discriminate.
Qed.

(** C8, amended.  A reply with at most one warning sign is returned as it
    is.  A reply with more than one is the text before the first sign, a
    sign, something in between, the last sign and the text after it; what
    comes back is the text before the first sign, a blank line (two
    newlines), the sign and the text after the last sign. *)
Theorem deduplicate_first_and_last (response : str) :
  ((occurrences WARNING_SIGN response <= 1)%nat ->
   _deduplicate_warnings response = response) /\
  ((1 < occurrences WARNING_SIGN response)%nat ->
   exists main mid last_text,
     response = main ++ WARNING_SIGN ++ mid ++ WARNING_SIGN ++ last_text /\
     contains WARNING_SIGN main = false /\
     contains WARNING_SIGN last_text = false /\
     _deduplicate_warnings response = main ++ (NL ++ NL) ++ WARNING_SIGN ++ last_text).
Proof.
  split; [apply deduplicate_few |].
  intros Hocc. unfold _deduplicate_warnings.
  pose proof (length_split_sign response) as Hlen.
  destruct (Nat.ltb_spec 2 (length (split WARNING_SIGN response))) as [_ | Hle]; [| lia].
  rewrite split_unfold in Hlen |- * by exact WARNING_SIGN_nonempty.
  destruct (partition WARNING_SIGN response) as [[b a]|] eqn:Ep; [| simpl in Hlen; lia].
  apply partition_some in Ep as [-> Hb]; [| exact WARNING_SIGN_nonempty].
  cbn [length] in Hlen.
  destruct (split_sign_last a) as (mid & t & -> & Ht & Hlast); [lia |].
  exists b, mid, t. repeat split; try assumption.
  cbv zeta. cbn [hd]. f_equal. f_equal. f_equal.
  destruct (split WARNING_SIGN (mid ++ WARNING_SIGN ++ t)) as [|p ps] eqn:Es;
    [cbn [length] in Hlen; lia | exact Hlast].
Qed.

Lemma deduplicate_first_and_last_witness :
  _deduplicate_warnings (s_ "no warning here") = s_ "no warning here" /\
  exists main mid last_text,
    two_warnings = main ++ WARNING_SIGN ++ mid ++ WARNING_SIGN ++ last_text /\
    contains WARNING_SIGN main = false /\
    contains WARNING_SIGN last_text = false /\
    _deduplicate_warnings two_warnings = main ++ (NL ++ NL) ++ WARNING_SIGN ++ last_text.
Proof.
  split.
  - apply (proj1 (deduplicate_first_and_last (s_ "no warning here"))). vm_compute. lia.
  - apply (proj2 (deduplicate_first_and_last two_warnings)). vm_compute. lia.
Defined.

(* ================================================================== *)
(** * One turn *)
(* ================================================================== *)

Section Turn.
Context {U : CaseTables}.

Lemma has_warning_of_phrase (indicator response : str) :
  In indicator warning_indicators ->
  contains indicator (lower response) = true ->
  _has_warning response = true.
Proof.
  intros Hin Hc. unfold _has_warning. apply existsb_exists. now exists indicator.
Qed.

(** A lower-case ASCII indicator that stands in [tail] shows in whatever
    [tail] is appended to. *)
Lemma has_warning_appended (indicator tail response : str) :
  In indicator warning_indicators ->
  forallb is_asciib indicator = true ->
  map ascii_lower indicator = indicator ->
  contains indicator tail = true ->
  _has_warning (response ++ tail) = true.
Proof.
  intros Hin Hascii Hlow Hc. apply (has_warning_of_phrase indicator); [exact Hin |].
  apply contains_spec in Hc as (a & b & ->).
  rewrite app_assoc. apply lower_keeps_phrase; [now apply is_asciib_spec | exact Hlow].
Qed.

Lemma has_warning_critical (response : str) :
  _has_warning (response ++ CRITICAL_WARNING) = true.
Proof.
  apply (has_warning_appended (s_ "urgent care")); try reflexivity.
  simpl. auto.
Qed.

Lemma has_warning_non_urgent (response : str) :
  _has_warning (response ++ NON_URGENT_WARNING) = true.
Proof.
  apply (has_warning_appended (s_ "contact your doctor")); try reflexivity.
  simpl. auto.
Qed.

Lemma known_flag_tier (flag : str) :
  In flag known_flags -> In flag critical \/ In flag non_urgent.
Proof. rewrite known_flags_eq. simpl. intuition. Qed.

(** Flags of the table, one at least, compose one of the two warnings. *)
Lemma create_red_flag_warning_known (red_flags : list str) :
  red_flags <> [] -> incl red_flags known_flags ->
  create_red_flag_warning red_flags = CRITICAL_WARNING \/
  create_red_flag_warning red_flags = NON_URGENT_WARNING.
Proof.
  intros Hne Hk. destruct red_flags as [|flag rest]; [contradiction |].
  unfold create_red_flag_warning.
  destruct (existsb (fun f => member f critical) (flag :: rest)) eqn:Ec; [now left |].
  right. replace (existsb (fun f => member f non_urgent) (flag :: rest)) with true;
    [reflexivity |].
  symmetry. apply has_tier_spec. exists flag. split; [now left |].
  destruct (known_flag_tier flag (Hk flag (or_introl eq_refl))) as [Hc | Hn];
    [| exact Hn].
  assert (existsb (fun f => member f critical) (flag :: rest) = true) as Ht
    by (apply has_tier_spec; exists flag; split; [now left | exact Hc]).
  congruence.
Qed.

Lemma create_red_flag_warning_nonempty (red_flags : list str) :
  red_flags <> [] -> incl red_flags known_flags ->
  create_red_flag_warning red_flags <> [].
Proof.
  intros Hne Hk. destruct (create_red_flag_warning_known red_flags Hne Hk) as [-> | ->];
    discriminate.
Qed.

(** The reply of a turn whose chain answered [raw]. *)
Lemma chat_reply (sv : Services) (self : PatientChatbot) (user_message raw : str) :
  rag_chain_invoke sv self user_message (current_conversation (memory self)) = inr raw ->
  snd (chat sv self user_message) = inr (reconcile (check_for_red_flags user_message) raw).
Proof. intros H. unfold chat. now rewrite H. Qed.

(** C1.  When the chain answers [raw], the reply is the de-duplicated
    [raw] with something appended: the composed warning, which is not
    empty, when the message has red flags and the de-duplicated text has
    no warning indicator, and nothing otherwise; a de-duplicated text with
    an indicator is the reply as it stands. *)
Theorem chat_appends_warning_once (sv : Services) (self : PatientChatbot)
    (user_message raw : str) :
  rag_chain_invoke sv self user_message (current_conversation (memory self)) = inr raw ->
  let red_flags := check_for_red_flags user_message in
  let response := _deduplicate_warnings raw in
  exists appended,
    snd (chat sv self user_message) = inr (response ++ appended) /\
    (red_flags <> [] /\ _has_warning response = false ->
     appended = create_red_flag_warning red_flags /\ appended <> []) /\
    (~ (red_flags <> [] /\ _has_warning response = false) -> appended = []) /\
    (_has_warning response = true ->
     snd (chat sv self user_message) = inr response).
Proof.
  intros Hraw red_flags response. rewrite (chat_reply _ _ _ _ Hraw).
  fold red_flags. unfold reconcile. fold response.
  pose proof (check_for_red_flags_known user_message) as Hk. fold red_flags in Hk.
  destruct red_flags as [|flag rest] eqn:Ef.
  - exists []. rewrite app_nil_r.
    split; [reflexivity |]. split; [| split; reflexivity].
    intros [Hne _]. now contradiction Hne.
  - destruct (_has_warning response) eqn:Ew; cbn [negb].
    + exists []. rewrite app_nil_r.
      split; [reflexivity |]. split; [| split; reflexivity].
      intros [_ Hw]. discriminate Hw.
    + exists (create_red_flag_warning (flag :: rest)).
      split; [reflexivity |]. split; [| split].
      * intros _. split; [reflexivity |].
        apply create_red_flag_warning_nonempty; [discriminate | exact Hk].
      * intros Hn. exfalso. apply Hn. split; [discriminate | reflexivity].
      * discriminate.
Qed.

(** C9.  Whatever the chain answered, the reply made for flags of the
    table, one at least, has a warning indicator: the de-duplicated text
    had one or the appended warning brings one. *)
Theorem reconcile_has_warning (red_flags : list str) (raw : str) :
  red_flags <> [] -> incl red_flags known_flags ->
  _has_warning (reconcile red_flags raw) = true /\
  (reconcile red_flags raw = _deduplicate_warnings raw \/
   reconcile red_flags raw = _deduplicate_warnings raw ++ CRITICAL_WARNING \/
   reconcile red_flags raw = _deduplicate_warnings raw ++ NON_URGENT_WARNING) /\
  contains (s_ "urgent care") CRITICAL_WARNING = true /\
  contains (s_ "emergency") CRITICAL_WARNING = true /\
  contains (s_ "contact your doctor") NON_URGENT_WARNING = true.
Proof.
  intros Hne Hk. split; [| split; [| repeat split]].
  - unfold reconcile. destruct red_flags as [|flag rest] eqn:Ef; [contradiction |].
    destruct (_has_warning (_deduplicate_warnings raw)) eqn:Ew; cbn [negb]; [exact Ew |].
    destruct (create_red_flag_warning_known _ Hne Hk) as [-> | ->];
      [apply has_warning_critical | apply has_warning_non_urgent].
  - unfold reconcile. destruct red_flags as [|flag rest] eqn:Ef; [contradiction |].
    destruct (negb _); [| now left].
    destruct (create_red_flag_warning_known _ Hne Hk) as [-> | ->]; auto.
Qed.

(** C3.  A turn whose chain raises leaves the chatbot, its memory
    included, as it was, and hands the exception to the caller instead of
    a reply; the same holds when it is the model that raises after a
    successful retrieval. *)
Theorem chat_failure_leaves_memory (sv : Services) (self : PatientChatbot)
    (user_message : str) (e : exn) :
  rag_chain_invoke sv self user_message (current_conversation (memory self)) = inl e ->
  chat sv self user_message = (self, inl e) /\
  memory (fst (chat sv self user_message)) = memory self /\
  (forall reply, snd (chat sv self user_message) <> inr reply) /\
  chat sv (fst (chat sv self user_message)) user_message = chat sv self user_message.
Proof.
  intros H. assert (chat sv self user_message = (self, inl e)) as Hc
    by (unfold chat; now rewrite H).
  rewrite Hc. cbn [fst snd]. rewrite Hc. repeat split. discriminate.
Qed.

Lemma llm_failure_fails_chain (sv : Services) (self : PatientChatbot)
    (user_message : str) (docs : list str) (e : exn) :
  retriever_invoke sv user_message = inr docs ->
  llm_invoke sv (prompt_input self docs user_message (current_conversation (memory self)))
    = inl e ->
  rag_chain_invoke sv self user_message (current_conversation (memory self)) = inl e.
Proof. intros Hr Hl. unfold rag_chain_invoke. now rewrite Hr. Qed.
End Turn.

(* ================================================================== *)
(** * The context of a turn over a session *)
(* ================================================================== *)

Section Session.
Context {U : CaseTables}.

Lemma rag_chain_invoke_request (sv : Services) (self : PatientChatbot) (user_message : str) :
  rag_chain_invoke sv self user_message (current_conversation (memory self)) =
  match retriever_invoke sv user_message with
  | inl e => inl e
  | inr docs => llm_invoke sv (turn_request self docs user_message)
  end.
Proof. reflexivity. Qed.

Lemma chat_keeps_recent_context (sv : Services) (self : PatientChatbot) (user_message : str) :
  recent_context (fst (chat sv self user_message)) = recent_context self.
Proof.
  unfold chat. now destruct (rag_chain_invoke sv self user_message _).
Qed.

Lemma chat_all_keeps_recent_context (turns : list (Services * str)) :
  forall self, recent_context (chat_all turns self) = recent_context self.
Proof.
  induction turns as [|[sv user_message] turns IH]; intros self; [reflexivity |].
  cbn [chat_all]. rewrite IH. apply chat_keeps_recent_context.
Qed.

Lemma format_conversation_context_ext (a b : PatientChatbot) :
  recent_context a = recent_context b ->
  _format_conversation_context a = _format_conversation_context b.
Proof. unfold _format_conversation_context. now intros ->. Qed.

(** A turn that answers appends the patient's message and the reply, in
    this order, to the log of the session. *)
Lemma chat_appends_turn (sv : Services) (self : PatientChatbot) (user_message reply : str) :
  snd (chat sv self user_message) = inr reply ->
  current_conversation (memory (fst (chat sv self user_message))) =
  current_conversation (memory self) ++ [user_turn user_message; assistant_turn reply].
Proof.
  unfold chat. destruct (rag_chain_invoke sv self user_message _) as [e | raw];
    [discriminate |].
  cbn [fst snd]. intros H. injection H as <-. cbn. now rewrite <- app_assoc.
Qed.

(** C5, amended.  The recent context is fetched from the memory once, when
    the chatbot is built; after any number of turns it is still that
    value, and the conversation context of a turn's request is formatted
    from it.  What earlier turns of the session appended reaches the
    request as the chat history, which is read from the session's log at
    each turn. *)
Theorem conversation_context_from_construction
    (st : list (str * list Message)) (pid : str) (turns : list (Services * str))
    (docs : list str) (user_message : str) :
  let built := init st pid in
  let self := chat_all turns built in
  recent_context self = get_recent_context pid 6 (memory built) /\
  conversation_context (turn_request self docs user_message) =
    _format_conversation_context built /\
  chat_history (turn_request self docs user_message) =
    format_chat_history (current_conversation (memory self)) /\
  (forall sv reply,
     snd (chat sv self user_message) = inr reply ->
     current_conversation (memory (fst (chat sv self user_message))) =
     current_conversation (memory self) ++ [user_turn user_message; assistant_turn reply]).
Proof.
  intros built self.
  assert (recent_context self = recent_context built) as Hrc
    by apply chat_all_keeps_recent_context.
  split; [exact Hrc |]. split; [| split].
  - cbn [turn_request prompt_input conversation_context].
    now apply format_conversation_context_ext.
  - reflexivity.
  - intros sv reply. apply chat_appends_turn.
Qed.
End Session.

(* ================================================================== *)
(** * Runs on concrete inputs *)
(* ================================================================== *)

(** C5, as stated, fails: in the second turn of a session the memory's
    recent context holds the first turn, and the model is still told that
    this is the first conversation. *)
Lemma conversation_context_not_recomputed :
  get_recent_context (s_ "p1") 6 (memory after_first_turn) =
    [ @user_turn ascii_tables (s_ "hi");
      assistant_turn (s_ "First conversation with this patient.") ] /\
  snd (@chat ascii_tables echo_context after_first_turn (s_ "what next?")) =
    inr (s_ "First conversation with this patient.") /\
  conversation_context_as_stated after_first_turn =
    s_ "Recent history:" ++ NL ++ s_ "Patient: hi" ++ NL
    ++ s_ "You: First conversation with this patient." ++ NL /\
  conversation_context (turn_request after_first_turn [] (s_ "what next?")) <>
    conversation_context_as_stated after_first_turn.
Proof.
  split; [vm_compute; reflexivity |]. split; [vm_compute; reflexivity |].
  split; [vm_compute; reflexivity |]. vm_compute. discriminate.
Qed.

Lemma chat_appends_warning_once_witness :
  snd (@chat ascii_tables (answering (s_ "Try more fiber.")) new_patient black_dizzy_message) =
    inr (s_ "Try more fiber." ++ CRITICAL_WARNING) /\
  snd (@chat ascii_tables (answering (s_ "Please see a doctor.")) new_patient
         black_dizzy_message) = inr (s_ "Please see a doctor.").
Proof.
  split.
  - destruct (@chat_appends_warning_once ascii_tables (answering (s_ "Try more fiber."))
                new_patient black_dizzy_message (s_ "Try more fiber.") eq_refl)
      as (appended & Hreply & Happ & _).
    rewrite Hreply. destruct Happ as [-> _]; [| reflexivity].
    split; [vm_compute; discriminate | reflexivity].
  - destruct (@chat_appends_warning_once ascii_tables (answering (s_ "Please see a doctor."))
                new_patient black_dizzy_message (s_ "Please see a doctor.") eq_refl)
      as (_ & _ & _ & _ & Hkeep).
    apply Hkeep. reflexivity.
Defined.

Lemma reconcile_has_warning_witness :
  @_has_warning ascii_tables (@reconcile ascii_tables [fever] (s_ "Drink water.")) = true.
Proof.
  apply (proj1 (@reconcile_has_warning ascii_tables [fever] (s_ "Drink water.")
                  ltac:(discriminate)
                  ltac:(intros flag [<- | []]; rewrite known_flags_eq; simpl; auto))).
Defined.

Lemma chat_failure_leaves_memory_witness :
  @chat ascii_tables model_down new_patient (s_ "I feel dizzy") =
    (new_patient, inl (Raised (s_ "overloaded"))).
Proof.
  apply (proj1 (@chat_failure_leaves_memory ascii_tables model_down new_patient
                  (s_ "I feel dizzy") (Raised (s_ "overloaded")) eq_refl)).
Defined.

Lemma check_for_red_flags_total_witness :
  @check_for_red_flags ascii_tables (@lower ascii_tables (s_ "I feel DIZZY")) =
  @check_for_red_flags ascii_tables (s_ "I feel DIZZY").
Proof.
  apply (proj2 (proj2 (@check_for_red_flags_total ascii_tables (s_ "I feel DIZZY")))).
Defined.

Lemma black_tarry_dizzy_scenario_witness :
  @check_for_red_flags ascii_tables black_dizzy_message = [black_stool; dizziness].
Proof. apply (proj1 (@black_tarry_dizzy_scenario ascii_tables)). Defined.

Lemma conversation_context_from_construction_witness :
  conversation_context
    (turn_request
       (@chat_all ascii_tables
          [(echo_context, s_ "hi"); (answering (s_ "Drink water."), s_ "thanks")]
          new_patient)
       [] (s_ "what next?"))
  = s_ "First conversation with this patient.".
Proof.
  apply (proj1 (proj2 (@conversation_context_from_construction ascii_tables
                         [] (s_ "p1")
                         [(echo_context, s_ "hi"); (answering (s_ "Drink water."), s_ "thanks")]
                         [] (s_ "what next?")))).
Defined.

(* ================================================================== *)
(** * Further facts about the de-duplication *)
(* ================================================================== *)

(** A reply with several warning signs, cut at the first and the last. *)
Lemma deduplicate_many (response : str) :
  (1 < occurrences WARNING_SIGN response)%nat ->
  exists main mid last_text,
    response = main ++ WARNING_SIGN ++ mid ++ WARNING_SIGN ++ last_text /\
    contains WARNING_SIGN main = false /\
    contains WARNING_SIGN last_text = false /\
    _deduplicate_warnings response = main ++ (NL ++ NL) ++ WARNING_SIGN ++ last_text.
Proof.
  intros Hocc. unfold _deduplicate_warnings.
  pose proof (length_split_sign response) as Hlen.
  destruct (Nat.ltb_spec 2 (length (split WARNING_SIGN response))) as [_ | Hle]; [| lia].
  rewrite split_unfold in Hlen |- * by exact WARNING_SIGN_nonempty.
  destruct (partition WARNING_SIGN response) as [[b a]|] eqn:Ep; [| simpl in Hlen; lia].
  apply partition_some in Ep as [-> Hb]; [| exact WARNING_SIGN_nonempty].
  cbn [length] in Hlen.
  destruct (split_sign_last a) as (mid & t & -> & Ht & Hlast); [lia |].
  exists b, mid, t. repeat split; try assumption.
  cbv zeta. cbn [hd]. do 3 f_equal.
  destruct (split WARNING_SIGN (mid ++ WARNING_SIGN ++ t)) as [|p ps] eqn:Es;
    [cbn [length] in Hlen; lia | exact Hlast].
Qed.

Lemma deduplicate_sign_bound (response : str) :
  (occurrences WARNING_SIGN (_deduplicate_warnings response) <= 1)%nat.
Proof.
  destruct (Nat.le_gt_cases (occurrences WARNING_SIGN response) 1) as [Hfew | Hmany].
  - now rewrite (deduplicate_few response Hfew).
  - destruct (deduplicate_many response Hmany) as (main & mid & t & -> & Hm & Ht & ->).
    rewrite (app_assoc main (NL ++ NL)).
    rewrite occurrences_sign_first by now apply contains_sign_blank_line.
    now rewrite occurrences_zero by (exact WARNING_SIGN_nonempty || exact Ht).
Qed.

(** X1.  What [_deduplicate_warnings] returns holds at most one warning
    sign and is never longer than what it was given. *)
Theorem deduplicate_one_sign_no_longer (response : str) :
  (occurrences WARNING_SIGN (_deduplicate_warnings response) <= 1)%nat /\
  (length (_deduplicate_warnings response) <= length response)%nat.
Proof.
  split; [apply deduplicate_sign_bound |].
  destruct (Nat.le_gt_cases (occurrences WARNING_SIGN response) 1) as [Hfew | Hmany].
  - rewrite (deduplicate_few response Hfew). apply Nat.le_refl.
  - destruct (deduplicate_many response Hmany) as (main & mid & t & -> & Hm & Ht & ->).
    rewrite !length_app. simpl. lia.
Qed.

(* ================================================================== *)
(** * Further facts about the warning composer *)
(* ================================================================== *)

(** The composer as a function of the two tests, the empty list included. *)
Lemma create_red_flag_warning_eq (red_flags : list str) :
  create_red_flag_warning red_flags =
  if existsb (fun flag => member flag critical) red_flags then CRITICAL_WARNING
  else if existsb (fun flag => member flag non_urgent) red_flags then NON_URGENT_WARNING
  else [].
Proof. destruct red_flags; reflexivity. Qed.

Lemma has_tier_incl (tier l l' : list str) :
  incl l l' ->
  existsb (fun flag => member flag tier) l = true ->
  existsb (fun flag => member flag tier) l' = true.
Proof.
  intros Hi H. apply has_tier_spec in H as (flag & Hin & Ht).
  apply has_tier_spec. exists flag. split; [now apply Hi | exact Ht].
Qed.

(** X2.  More flags never weaken the warning: with every flag of [l] also in
    [l'], a critical warning for [l] is a critical warning for [l'], and a
    warning for [l] means a warning for [l']. *)
Theorem create_red_flag_warning_monotone (l l' : list str) :
  incl l l' ->
  (create_red_flag_warning l = CRITICAL_WARNING ->
   create_red_flag_warning l' = CRITICAL_WARNING) /\
  (create_red_flag_warning l <> [] -> create_red_flag_warning l' <> []).
Proof.
  intros Hi. rewrite !create_red_flag_warning_eq.
  pose proof (has_tier_incl critical l l' Hi) as Hc.
  pose proof (has_tier_incl non_urgent l l' Hi) as Hn.
  destruct (existsb _ l) eqn:Ec.
  - rewrite (Hc eq_refl). split; [reflexivity | discriminate].
  - destruct (existsb (fun flag => member flag non_urgent) l) eqn:En.
    + split; [discriminate |]. intros _. rewrite (Hn eq_refl).
      destruct (existsb _ l'); discriminate.
    + split; [discriminate | intros H; now contradiction H].
Qed.

(** X3.  The warning depends on which flags are there, not on their order or
    on how often each one is listed. *)
Theorem create_red_flag_warning_same_flags (l l' : list str) :
  (forall flag, In flag l <-> In flag l') ->
  create_red_flag_warning l = create_red_flag_warning l'.
Proof.
  intros H. rewrite !create_red_flag_warning_eq.
  assert (forall tier, existsb (fun flag => member flag tier) l =
                       existsb (fun flag => member flag tier) l') as E.
  { intros tier.
    destruct (existsb _ l) eqn:E1; destruct (existsb _ l') eqn:E2; try reflexivity.
    - apply (has_tier_incl tier l l') in E1; [congruence | intros f Hf; now apply H].
    - apply (has_tier_incl tier l' l) in E2; [congruence | intros f Hf; now apply H]. }
  now rewrite !E.
Qed.

Lemma create_red_flag_warning_monotone_witness :
  create_red_flag_warning [fever; dizziness] = CRITICAL_WARNING /\
  create_red_flag_warning [fever; dizziness] <> [].
Proof.
  destruct (create_red_flag_warning_monotone [dizziness] [fever; dizziness]) as [Hc Hn].
  - intros flag [<- | []]. simpl. auto.
  - split; [apply Hc; reflexivity | apply Hn; discriminate].
Defined.

Lemma create_red_flag_warning_same_flags_witness :
  create_red_flag_warning [fever; dizziness; fever] = create_red_flag_warning [dizziness; fever].
Proof.
  apply (create_red_flag_warning_same_flags [fever; dizziness; fever] [dizziness; fever]).
  intros flag. simpl. tauto.
Defined.

(* ================================================================== *)
(** * Further facts about the classifier *)
(* ================================================================== *)

Lemma matches_lit (w p : str) : matches (lit w) p <-> p = w.
Proof.
  revert p. induction w as [|c w IH]; intros p.
  - simpl. split; [intros H; now inversion H | intros ->; constructor].
  - destruct w as [|d w].
    + simpl. split; [intros H; now inversion H | intros ->; constructor].
    + change (lit (c :: d :: w)) with (Cat (Lit c) (lit (d :: w))). split.
      * intros H. inversion H as [| | |? ? s1 s2 H1 H2| | | |]; subst.
        inversion H1; subst. apply IH in H2. now subst.
      * intros ->. change (c :: d :: w) with ([c] ++ d :: w).
        constructor; [constructor | now apply IH].
Qed.

Lemma matches_alts (rs : list regex) (p : str) :
  matches (alts rs) p <-> exists r, In r rs /\ matches r p.
Proof.
  induction rs as [|r rs IH].
  - simpl. split; [intros H; inversion H | intros (r & [] & _)].
  - destruct rs as [|r' rs].
    + simpl. split; [intros H; exists r; auto | intros (r0 & [<- | []] & H); exact H].
    + change (alts (r :: r' :: rs)) with (Alt r (alts (r' :: rs))). split.
      * intros H. inversion H as [| | | |? ? ? Hl|? ? ? Hr| |]; subst.
        -- exists r. split; [now left | assumption].
        -- apply IH in Hr as (r0 & Hin & Hm). exists r0. split; [now right | assumption].
      * intros (r0 & [<- | Hin] & Hm); [now apply MAltL |].
        apply MAltR, IH. now exists r0.
Qed.

Lemma matches_any_of (ws : list string) (p : str) :
  matches (any_of ws) p <-> exists w, In w ws /\ p = s_ w.
Proof.
  unfold any_of. rewrite matches_alts. split.
  - intros (r & Hin & Hm). apply in_map_iff in Hin as (w & <- & Hw).
    exists w. split; [exact Hw | now apply matches_lit].
  - intros (w & Hw & ->). exists (lit (s_ w)). split; [| now apply matches_lit].
    apply in_map_iff. now exists w.
Qed.

Lemma matches_cat (r1 r2 : regex) (p : str) :
  matches (Cat r1 r2) p <-> exists p1 p2, p = p1 ++ p2 /\ matches r1 p1 /\ matches r2 p2.
Proof.
  split.
  - intros H. inversion H; subst. eauto.
  - intros (p1 & p2 & -> & H1 & H2). now constructor.
Qed.

Lemma matches_star_dot (x : str) : matches (Star Dot) x <-> no_newline x.
Proof.
  unfold no_newline. split.
  - intros H. remember (Star Dot) as r eqn:Er.
    induction H as [| | | | | | |r0 s1 s2 H1 _ H2 IH2]; try discriminate; [constructor |].
    injection Er as ->. apply Forall_app. split; [| now apply IH2].
    inversion H1 as [| |c Hc| | | | |]; subst. constructor; [| constructor].
    unfold dot_ok in Hc. apply negb_true_iff, Z.eqb_neq in Hc. exact Hc.
  - induction x as [|c x IH]; intros H; [constructor |].
    inversion H as [|? ? Hc Hx]; subst. change (c :: x) with ([c] ++ x).
    constructor; [| now apply IH]. constructor.
    unfold dot_ok. now apply negb_true_iff, Z.eqb_neq.
Qed.

(** A search for an alternation of phrases is a substring test for each. *)
Lemma re_search_any_of (ws : list string) (text : str) :
  re_search (any_of ws) text = true <-> exists w, In w ws /\ contains (s_ w) text = true.
Proof.
  rewrite re_search_spec. split.
  - intros (a & p & q & -> & Hm). apply matches_any_of in Hm as (w & Hw & ->).
    exists w. split; [exact Hw | apply contains_app].
  - intros (w & Hw & Hc). apply contains_spec in Hc as (a & b & ->).
    exists a, (s_ w), b. split; [reflexivity |]. apply matches_any_of. now exists w.
Qed.

Lemma assoc_unique {A B} (l : list (A * B)) (k : A) (v v' : B) :
  NoDup (map fst l) -> In (k, v) l -> In (k, v') l -> v = v'.
Proof.
  induction l as [|[k0 v0] l IH]; intros Hnd H1 H2; [destruct H1 |].
  inversion Hnd as [|? ? Hnotin Hnd']; subst.
  destruct H1 as [E1 | H1]; destruct H2 as [E2 | H2].
  - congruence.
  - injection E1 as -> ->. exfalso. apply Hnotin.
    change k with (fst (k, v')). now apply in_map.
  - injection E2 as -> ->. exfalso. apply Hnotin.
    change k with (fst (k, v)). now apply in_map.
  - now apply IH.
Qed.

Lemma known_flags_nodup : NoDup known_flags.
Proof.
  rewrite known_flags_eq.
  repeat (constructor; [simpl; intros H;
    repeat match goal with H : _ \/ _ |- _ => destruct H end;
    solve [discriminate | contradiction] |]).
  constructor.
Qed.

(** A flag is raised exactly when its own pattern is found. *)
Lemma check_for_red_flags_In {U : CaseTables} (user_message flag : str) (pattern : regex) :
  In (flag, pattern) RED_FLAG_PATTERNS ->
  (In flag (check_for_red_flags user_message) <->
   re_search pattern (lower user_message) = true).
Proof.
  intros Hin. unfold check_for_red_flags. rewrite scan_flags_In. split.
  - intros (r & Hr & Hs).
    now rewrite (assoc_unique RED_FLAG_PATTERNS flag pattern r known_flags_nodup Hin Hr).
  - intros H. now exists pattern.
Qed.

Lemma literal_triggers_patterns (flag : str) (ws : list string) :
  In (flag, ws) literal_triggers -> In (flag, any_of ws) RED_FLAG_PATTERNS.
Proof.
  unfold literal_triggers. simpl.
  intros [H | [H | [H | [H | []]]]]; injection H as <- <-; auto 10.
Qed.

(** X4.  The flags for severe pain, heavy bleeding, fever and dizziness are
    substring tests: each is raised exactly when one of its trigger phrases
    occurs somewhere in the lower-cased message, inside a word or not. *)
Theorem literal_flag_iff_substring {U : CaseTables} (user_message flag : str)
    (ws : list string) :
  In (flag, ws) literal_triggers ->
  (In flag (check_for_red_flags user_message) <->
   exists w, In w ws /\ contains (s_ w) (lower user_message) = true).
Proof.
  intros Hin. apply literal_triggers_patterns in Hin.
  rewrite (check_for_red_flags_In _ _ _ Hin). apply re_search_any_of.
Qed.

Lemma literal_flag_iff_substring_witness :
  In fever (@check_for_red_flags ascii_tables (s_ "I have had FEVERS since Monday")).
Proof.
  apply (proj2 (@literal_flag_iff_substring ascii_tables
                  (s_ "I have had FEVERS since Monday") fever
                  ["fever"; "temperature"; "chills"; "hot and cold"]%string
                  ltac:(simpl; auto))).
  exists "fever"%string. split; [simpl; auto | reflexivity].
Defined.

Lemma ascii_lower_ascii (c : Z) : is_ascii (ascii_lower c) -> is_ascii c.
Proof.
  unfold ascii_lower, is_ascii. destruct ((65 <=? c) && (c <=? 90)) eqn:E; [| trivial].
  apply andb_true_iff in E as [E1 E2]. apply Z.leb_le in E1, E2. lia.
Qed.

Lemma ascii_lower_preimage (w w' : str) :
  map ascii_lower w' = w -> Forall is_ascii w -> Forall is_ascii w'.
Proof.
  intros <- H. induction w' as [|c w' IH]; [constructor |].
  inversion H; subst. constructor; [now apply ascii_lower_ascii | now apply IH].
Qed.

Lemma literal_triggers_ascii (flag : str) (ws : list string) (w : string) :
  In (flag, ws) literal_triggers -> In w ws -> Forall is_ascii (s_ w).
Proof.
  intros Hin Hw. apply is_asciib_spec.
  assert (forallb (fun item => forallb (fun w => forallb is_asciib (s_ w)) (snd item))
                  literal_triggers = true) as H by (vm_compute; reflexivity).
  rewrite forallb_forall in H. specialize (H _ Hin). cbn [snd] in H.
  rewrite forallb_forall in H. now apply H.
Qed.

Section ClassifierFacts.
Context {U : CaseTables}.

(** An ASCII stretch is lower-cased letter by letter, whatever stands
    around it. *)
Lemma lower_ascii_inside (a m b : str) :
  Forall is_ascii m ->
  exists a' b', lower (a ++ m ++ b) = a' ++ map ascii_lower m ++ b'.
Proof.
  intros Hm. unfold lower. destruct (lower_from_app a [] (m ++ b)) as [a' ->].
  rewrite lower_from_ascii by assumption. eauto.
Qed.

Lemma pattern_occurs_inside (pattern : regex) (a text b : str) :
  pattern_occurs pattern text -> pattern_occurs pattern (a ++ text ++ b).
Proof.
  intros (x & p & y & -> & Hm). exists (a ++ x), p, (y ++ b).
  split; [now rewrite <- !app_assoc | exact Hm].
Qed.

(** X5.  Text around an ASCII message never hides a flag: every flag of the
    message is a flag of any text that contains it. *)
Theorem check_for_red_flags_context (a user_message b : str) :
  Forall is_ascii user_message ->
  incl (check_for_red_flags user_message) (check_for_red_flags (a ++ user_message ++ b)).
Proof.
  intros Hm flag Hin. unfold check_for_red_flags in *.
  apply scan_flags_In in Hin as (pattern & Hp & Hs). apply scan_flags_In.
  exists pattern. split; [exact Hp |]. apply re_search_spec in Hs. apply re_search_spec.
  rewrite lower_ascii in Hs by assumption.
  destruct (lower_ascii_inside a user_message b Hm) as (a' & b' & ->).
  now apply (pattern_occurs_inside pattern a' _ b').
Qed.

(** X6.  The trigger phrases are found in any letter case: a message that
    contains a phrase of the four plain flags, with capitals or without,
    has the flag. *)
Theorem literal_flag_any_case (flag : str) (ws : list string) (w : string)
    (a spelled b : str) :
  In (flag, ws) literal_triggers -> In w ws ->
  map ascii_lower spelled = s_ w ->
  In flag (check_for_red_flags (a ++ spelled ++ b)).
Proof.
  intros Hin Hw Hs.
  pose proof (ascii_lower_preimage _ _ Hs (literal_triggers_ascii _ _ _ Hin Hw)) as Hascii.
  apply literal_triggers_patterns in Hin.
  apply (check_for_red_flags_In _ _ _ Hin). apply re_search_any_of.
  exists w. split; [exact Hw |].
  destruct (lower_ascii_inside a spelled b Hascii) as (a' & b' & ->).
  rewrite Hs. apply contains_app.
Qed.

(** X7.  Prolonged constipation is flagged exactly when, on one line of the
    lower-cased message, a negation ("no", "haven't", "havent") is followed
    by a stool word, and that by a day count from 3 to 7 with " day"; the
    three may stand inside longer words. *)
Theorem prolonged_constipation_iff (user_message : str) :
  In prolonged_constipation (check_for_red_flags user_message) <->
  exists a neg x word y n b,
    In neg negations /\ In word stool_words /\ In n day_counts /\
    no_newline x /\ no_newline y /\
    lower user_message = a ++ s_ neg ++ x ++ s_ word ++ y ++ s_ n ++ s_ " day" ++ b.
Proof.
  rewrite (check_for_red_flags_In user_message prolonged_constipation
             (any_of negations ;; Star Dot ;; any_of stool_words ;; Star Dot ;;
              any_of day_counts ;; lit (s_ " day")))
    by (simpl; auto 10).
  rewrite re_search_spec. split.
  - intros (a & p & b & Hl & Hm).
    apply matches_cat in Hm as (p1 & q1 & -> & H1 & Hm).
    apply matches_cat in Hm as (p2 & q2 & -> & H2 & Hm).
    apply matches_cat in Hm as (p3 & q3 & -> & H3 & Hm).
    apply matches_cat in Hm as (p4 & q4 & -> & H4 & Hm).
    apply matches_cat in Hm as (p5 & q5 & -> & H5 & H6).
    apply matches_any_of in H1 as (neg & Hneg & ->).
    apply matches_any_of in H3 as (word & Hword & ->).
    apply matches_any_of in H5 as (n & Hn & ->).
    apply matches_star_dot in H2. apply matches_star_dot in H4.
    apply matches_lit in H6. subst q5.
    exists a, neg, p2, word, p4, n, b. repeat (split; [assumption |]).
    rewrite Hl. now rewrite <- !app_assoc.
  - intros (a & neg & x & word & y & n & b & Hneg & Hword & Hn & Hx & Hy & Hl).
    exists a, (s_ neg ++ x ++ s_ word ++ y ++ s_ n ++ s_ " day"), b.
    split; [rewrite Hl; now rewrite <- !app_assoc |].
    constructor; [apply matches_any_of; now exists neg |].
    constructor; [now apply matches_star_dot |].
    constructor; [apply matches_any_of; now exists word |].
    constructor; [now apply matches_star_dot |].
    constructor; [apply matches_any_of; now exists n | now apply matches_lit].
Qed.

(** X8.  Black stool is flagged exactly when the lower-cased message
    contains "black stool", "tarry" or "coffee ground", or has "dark" and,
    later on the same line, "stool". *)
Theorem black_stool_iff (user_message : str) :
  In black_stool (check_for_red_flags user_message) <->
  contains (s_ "black stool") (lower user_message) = true \/
  contains (s_ "tarry") (lower user_message) = true \/
  contains (s_ "coffee ground") (lower user_message) = true \/
  exists a x b, no_newline x /\
                lower user_message = a ++ s_ "dark" ++ x ++ s_ "stool" ++ b.
Proof.
  rewrite (check_for_red_flags_In user_message black_stool
             (alts [lit (s_ "black stool"); lit (s_ "tarry");
                    lit (s_ "dark") ;; Star Dot ;; lit (s_ "stool");
                    lit (s_ "coffee ground")]))
    by (simpl; auto 10).
  rewrite re_search_spec. split.
  - intros (a & p & b & Hl & Hm). apply matches_alts in Hm as (r & Hr & Hm).
    destruct Hr as [<- | [<- | [<- | [<- | []]]]].
    + apply matches_lit in Hm. subst p. left. rewrite Hl. apply contains_app.
    + apply matches_lit in Hm. subst p. right. left. rewrite Hl. apply contains_app.
    + apply matches_cat in Hm as (p1 & q1 & -> & H1 & Hm).
      apply matches_cat in Hm as (p2 & q2 & -> & H2 & H3).
      apply matches_lit in H1. apply matches_lit in H3. apply matches_star_dot in H2.
      subst p1 q2. right. right. right. exists a, p2, b. split; [exact H2 |].
      rewrite Hl. now rewrite <- !app_assoc.
    + apply matches_lit in Hm. subst p. right. right. left. rewrite Hl. apply contains_app.
  - assert (forall w, In (lit w) [lit (s_ "black stool"); lit (s_ "tarry");
                                  lit (s_ "dark") ;; Star Dot ;; lit (s_ "stool");
                                  lit (s_ "coffee ground")] ->
                      contains w (lower user_message) = true ->
                      exists a p b, lower user_message = a ++ p ++ b /\
                        matches (alts [lit (s_ "black stool"); lit (s_ "tarry");
                                       lit (s_ "dark") ;; Star Dot ;; lit (s_ "stool");
                                       lit (s_ "coffee ground")]) p) as Hlit.
    { intros w Hw Hc. apply contains_spec in Hc as (a & b & ->). exists a, w, b.
      split; [reflexivity |]. apply matches_alts. exists (lit w).
      split; [exact Hw | now apply matches_lit]. }
    intros [H | [H | [H | (a & x & b & Hx & Hl)]]].
    + apply (Hlit (s_ "black stool")); [simpl; auto | exact H].
    + apply (Hlit (s_ "tarry")); [simpl; auto | exact H].
    + apply (Hlit (s_ "coffee ground")); [simpl; auto 10 | exact H].
    + exists a, (s_ "dark" ++ x ++ s_ "stool"), b.
      split; [rewrite Hl; now rewrite <- !app_assoc |].
      apply matches_alts. exists (lit (s_ "dark") ;; Star Dot ;; lit (s_ "stool")).
      split; [simpl; auto |].
      constructor; [now apply matches_lit |].
      constructor; [now apply matches_star_dot | now apply matches_lit].
Qed.
End ClassifierFacts.

Lemma check_for_red_flags_context_witness :
  incl (@check_for_red_flags ascii_tables (s_ "I feel dizzy"))
       (@check_for_red_flags ascii_tables
          (s_ "Since Monday " ++ s_ "I feel dizzy" ++ s_ " and tired")).
Proof.
  apply (@check_for_red_flags_context ascii_tables (s_ "Since Monday ") (s_ "I feel dizzy")
           (s_ " and tired")).
  apply is_asciib_spec. reflexivity.
Defined.

Lemma literal_flag_any_case_witness :
  In heavy_bleeding
     (@check_for_red_flags ascii_tables (s_ "There is " ++ s_ "Lots Of BLOOD" ++ s_ "!")).
Proof.
  apply (@literal_flag_any_case ascii_tables heavy_bleeding
           ["heavy bleed"; "lots of blood"; "pouring"; "filling toilet"; "gushing";
            "blood clot"]%string
           "lots of blood"%string (s_ "There is ") (s_ "Lots Of BLOOD") (s_ "!")).
  - simpl. auto.
  - simpl. auto.
  - reflexivity.
Defined.

Lemma scan_flags_notin (items : list (str * regex)) (text flag : str) :
  ~ In flag (map fst items) -> ~ In flag (scan_flags items text).
Proof. intros H Hin. apply H. now apply scan_flags_incl in Hin. Qed.

Lemma scan_flags_nodup (items : list (str * regex)) (text : str) :
  NoDup (map fst items) -> NoDup (scan_flags items text).
Proof.
  induction items as [|[f r] items IH]; intros Hnd; [constructor |].
  inversion Hnd as [|? ? Hnotin Hnd']; subst. cbn [scan_flags].
  destruct (re_search r text); [| now apply IH].
  constructor; [now apply scan_flags_notin | now apply IH].
Qed.

Lemma member_false (flag : str) (flags : list str) : ~ In flag flags -> member flag flags = false.
Proof.
  intros H. destruct (member flag flags) eqn:E; [| reflexivity].
  apply member_In in E. contradiction.
Qed.

Lemma scan_flags_order (items : list (str * regex)) (text : str) :
  NoDup (map fst items) ->
  scan_flags items text =
  filter (fun flag => member flag (scan_flags items text)) (map fst items).
Proof.
  induction items as [|[f r] items IH]; intros Hnd; [reflexivity |].
  inversion Hnd as [|? ? Hnotin Hnd']; subst. cbn [scan_flags map fst filter].
  destruct (re_search r text).
  - replace (member f (f :: scan_flags items text)) with true
      by (symmetry; apply member_In; now left).
    f_equal. rewrite (IH Hnd') at 1. apply filter_ext_in. intros g Hg.
    unfold member. cbn [existsb].
    replace (str_eqb g f) with false; [reflexivity |].
    symmetry. destruct (str_eqb g f) eqn:E; [| reflexivity].
    apply str_eqb_eq in E. subst g. contradiction.
  - rewrite (member_false f) by now apply scan_flags_notin.
    now apply IH.
Qed.

(** X9.  The classifier lists every flag once at most, in the order of the
    pattern table, whatever the order of the symptoms in the message. *)
Theorem check_for_red_flags_order {U : CaseTables} (user_message : str) :
  NoDup (check_for_red_flags user_message) /\
  check_for_red_flags user_message =
  filter (fun flag => member flag (check_for_red_flags user_message)) known_flags.
Proof.
  split.
  - apply scan_flags_nodup, known_flags_nodup.
  - apply scan_flags_order, known_flags_nodup.
Qed.

(* ================================================================== *)
(** * Further facts about the reply *)
(* ================================================================== *)

Lemma warning_indicators_ascii (indicator : str) :
  In indicator warning_indicators -> Forall is_ascii indicator.
Proof.
  intros Hin. apply is_asciib_spec.
  assert (forallb (forallb is_asciib) warning_indicators = true) as H
    by (vm_compute; reflexivity).
  rewrite forallb_forall in H. now apply H.
Qed.

(** X10.  The warning indicators are found in any letter case, anywhere in
    the reply. *)
Theorem has_warning_any_case {U : CaseTables} (indicator a spelled b : str) :
  In indicator warning_indicators ->
  map ascii_lower spelled = indicator ->
  _has_warning (a ++ spelled ++ b) = true.
Proof.
  intros Hin Hs. apply (has_warning_of_phrase indicator); [exact Hin |].
  pose proof (ascii_lower_preimage _ _ Hs (warning_indicators_ascii _ Hin)) as Hascii.
  destruct (lower_ascii_inside a spelled b Hascii) as (a' & b' & ->).
  rewrite Hs. apply contains_app.
Qed.

Lemma has_warning_any_case_witness :
  @_has_warning ascii_tables (s_ "Please " ++ s_ "See A Doctor" ++ s_ " soon.") = true.
Proof.
  apply (@has_warning_any_case ascii_tables (s_ "see a doctor") (s_ "Please ")
           (s_ "See A Doctor") (s_ " soon.")).
  - simpl. auto.
  - reflexivity.
Defined.

(** Text that begins with a newline adds its own warning signs and no
    other. *)
Lemma occurrences_sign_app (x t : str) :
  occurrences WARNING_SIGN (x ++ NL ++ t) =
  (occurrences WARNING_SIGN x + occurrences WARNING_SIGN (NL ++ t))%nat.
Proof.
  induction x as [|c x IH]; [reflexivity |].
  cbn [app occurrences]. rewrite IH.
  replace (startswith WARNING_SIGN (c :: x ++ NL ++ t))
    with (startswith WARNING_SIGN (c :: x)); [lia |].
  destruct x as [|d x]; [| reflexivity].
  cbn [startswith WARNING_SIGN app NL]. destruct (9888 =? c); reflexivity.
Qed.

(** X11.  The reply holds two warning signs at most, and one at most unless
    the follow-up warning was composed; it holds two when the generated
    text has a sign, no indicator, and the follow-up warning is appended. *)
Theorem reconcile_sign_count {U : CaseTables} (red_flags : list str) (raw : str) :
  (occurrences WARNING_SIGN (reconcile red_flags raw) <= 2)%nat /\
  (create_red_flag_warning red_flags <> NON_URGENT_WARNING ->
   (occurrences WARNING_SIGN (reconcile red_flags raw) <= 1)%nat) /\
  (create_red_flag_warning red_flags = NON_URGENT_WARNING ->
   _has_warning (_deduplicate_warnings raw) = false ->
   occurrences WARNING_SIGN (reconcile red_flags raw) =
   S (occurrences WARNING_SIGN (_deduplicate_warnings raw))).
Proof.
  pose proof (deduplicate_sign_bound raw) as Hd.
  assert (forall t, occurrences WARNING_SIGN (_deduplicate_warnings raw ++ NL ++ t)
                    = (occurrences WARNING_SIGN (_deduplicate_warnings raw)
                       + occurrences WARNING_SIGN (NL ++ t))%nat) as Happ
    by (intros t; apply occurrences_sign_app).
  assert (occurrences WARNING_SIGN (_deduplicate_warnings raw ++ CRITICAL_WARNING)
          = occurrences WARNING_SIGN (_deduplicate_warnings raw)) as Hc.
  { unfold CRITICAL_WARNING. rewrite Happ.
    match goal with |- (_ + ?n)%nat = _ =>
      replace n with 0%nat by (vm_compute; reflexivity) end. lia. }
  assert (occurrences WARNING_SIGN (_deduplicate_warnings raw ++ NON_URGENT_WARNING)
          = S (occurrences WARNING_SIGN (_deduplicate_warnings raw))) as Hn.
  { unfold NON_URGENT_WARNING. rewrite Happ.
    match goal with |- (_ + ?n)%nat = _ =>
      replace n with 1%nat by (vm_compute; reflexivity) end. lia. }
  unfold reconcile. destruct red_flags as [|flag rest] eqn:Ef.
  - split; [lia |]. split; [intros _; exact Hd | intros H; discriminate H].
  - rewrite <- Ef. rewrite (create_red_flag_warning_eq red_flags).
    destruct (_has_warning (_deduplicate_warnings raw)) eqn:Ew; cbn [negb].
    + split; [lia |]. split; [intros _; exact Hd | intros _ H; discriminate H].
    + destruct (existsb (fun f => member f critical) red_flags).
      * rewrite Hc. split; [lia |]. split; [intros _; exact Hd | intros H; discriminate H].
      * destruct (existsb (fun f => member f non_urgent) red_flags).
        -- rewrite Hn. split; [lia |]. split; [intros H; now contradiction H | reflexivity].
        -- rewrite app_nil_r. split; [lia |].
           split; [intros _; exact Hd | intros H; discriminate H].
Qed.

Lemma reconcile_sign_count_witness :
  occurrences WARNING_SIGN
    (@reconcile ascii_tables [fever] (s_ "Note " ++ WARNING_SIGN ++ s_ " drink water")) = 2%nat.
Proof.
  rewrite (proj2 (proj2 (@reconcile_sign_count ascii_tables [fever]
                           (s_ "Note " ++ WARNING_SIGN ++ s_ " drink water")))
             eq_refl eq_refl).
  reflexivity.
Defined.

(* ================================================================== *)
(** * Further facts about the prompt *)
(* ================================================================== *)

Lemma length_last_n {A} (n : nat) (l : list A) : (length (last_n n l) <= n)%nat.
Proof. unfold last_n. rewrite length_skipn. lia. Qed.

Lemma length_format_turn (context : str) (msg : Message) :
  (length (format_turn context msg) <= length context + 213)%nat.
Proof.
  unfold format_turn. cbv zeta. rewrite !length_app.
  change (length (s_ ": ")) with 2%nat. change (length NL) with 1%nat.
  match goal with
  | |- (_ + (?a + (_ + (?b + _))) <= _)%nat =>
      assert (a <= 7)%nat as Hr by (destruct (str_eqb _ _); simpl; lia);
      assert (b <= 203)%nat as Hc
  end.
  { destruct (Nat.ltb_spec 200 (length (content msg))).
    - rewrite length_app, length_firstn. change (length (s_ "...")) with 3%nat. lia.
    - lia. }
  lia.
Qed.

Lemma length_fold_format_turn (msgs : list Message) : forall context,
  (length (fold_left format_turn msgs context) <= length context + 213 * length msgs)%nat.
Proof.
  induction msgs as [|msg msgs IH]; intros context; cbn [fold_left length]; [lia |].
  specialize (IH (format_turn context msg)).
  pose proof (length_format_turn context msg). lia.
Qed.

(** X12.  However long the history and its messages, the conversation
    context put into the prompt has 868 code points at most, and it is made
    of the last four messages of the recent context alone. *)
Theorem format_conversation_context_bounded (self other : PatientChatbot) :
  (length (_format_conversation_context self) <= 868)%nat /\
  (recent_context self <> [] -> recent_context other <> [] ->
   last_n 4 (recent_context self) = last_n 4 (recent_context other) ->
   _format_conversation_context self = _format_conversation_context other).
Proof.
  unfold _format_conversation_context. split.
  - destruct (recent_context self) as [|m rc] eqn:E; [simpl; lia |].
    pose proof (length_fold_format_turn (last_n 4 (m :: rc)) (s_ "Recent history:" ++ NL)).
    pose proof (length_last_n 4 (m :: rc)).
    change (length (s_ "Recent history:" ++ NL)) with 16%nat in *. lia.
  - intros Hs Ho Hl. destruct (recent_context self); [contradiction |].
    destruct (recent_context other); [contradiction |]. now rewrite Hl.
Qed.

Lemma join_cons (sep p : str) (rest : list str) :
  join sep (p :: rest) = p ++ match rest with [] => [] | _ => sep ++ join sep rest end.
Proof. destruct rest; [symmetry; apply app_nil_r | reflexivity]. Qed.

(** X13.  Every retrieved document stands in the context text handed to
    the model, and no documents give the empty text. *)
Theorem format_docs_contains (docs : list str) (doc : str) :
  format_docs [] = [] /\
  (In doc docs -> contains doc (format_docs docs) = true).
Proof.
  split; [reflexivity |]. unfold format_docs.
  induction docs as [|p rest IH]; intros Hin; [destruct Hin |].
  rewrite join_cons. destruct Hin as [-> | Hin].
  - apply contains_spec. exists [], (match rest with [] => [] | _ => (NL ++ NL) ++ join (NL ++ NL) rest end).
    reflexivity.
  - destruct rest as [|q rest]; [destruct Hin |].
    apply IH in Hin. apply contains_spec in Hin as (a & b & Hj).
    apply contains_spec. exists (p ++ (NL ++ NL) ++ a), b. rewrite Hj.
    now rewrite <- !app_assoc.
Qed.

Lemma format_docs_contains_witness :
  contains (s_ "Sitz baths help.")
    (format_docs [s_ "Fiber helps."; s_ "Sitz baths help."; s_ "Drink water."]) = true.
Proof.
  apply (proj2 (format_docs_contains
                  [s_ "Fiber helps."; s_ "Sitz baths help."; s_ "Drink water."]
                  (s_ "Sitz baths help."))).
  simpl. auto.
Defined.

(* ================================================================== *)
(** * The test runner ([debug_test_runner.py]) *)
(* ================================================================== *)

Module TestRunner.

(** A test case as the runner builds it from a question of the manual test
    file: the question asked is the title. *)
Record Question := {
  q_id : str;
  q_category : str;
  q_title : str;
  q_source : str;
  q_url : option str;
  q_body : option str
}.

Record Metadata := {
  source : str;
  url : str;
  body : str
}.

Record TestCase := {
  id : str;
  category : str;
  question : str;
  metadata : Metadata
}.

(** [q.get(key, '')] *)
Definition get_or_empty (v : option str) : str :=
  match v with Some s => s | None => [] end.

Definition load_test_cases (questions : list Question) : list TestCase :=
  map (fun q =>
         {| id := q_id q;
            category := q_category q;
            question := q_title q;
            metadata := {| source := q_source q;
                           url := get_or_empty (q_url q);
                           body := get_or_empty (q_body q) |} |})
      questions.

(** An entry of [responses]: the reply, or [None] and the text of the
    exception. *)
Record Response := {
  test_case : TestCase;
  response : option str;
  error : option str
}.

(** [str(e)] *)
Definition str_of_exn (e : exn) : str := match e with Raised what => what end.

(** The loop over the test cases, on the one chatbot of the run.  Each case
    comes with the services as they answer while it is processed. *)
Fixpoint generate_responses {U : CaseTables} (test_cases : list (Services * TestCase))
    (chatbot : PatientChatbot) : PatientChatbot * list Response :=
  match test_cases with
  | [] => (chatbot, [])
  | (sv, tc) :: rest =>
      let (chatbot', outcome) := chat sv chatbot (question tc) in
      let entry :=
        match outcome with
        | inr reply => {| test_case := tc; response := Some reply; error := None |}
        | inl e => {| test_case := tc; response := None; error := Some (str_of_exn e) |}
        end in
      let (chatbot'', responses) := generate_responses rest chatbot' in
      (chatbot'', entry :: responses)
  end.

Definition is_some {A} (o : option A) : bool :=
  match o with Some _ => true | None => false end.

(** The record written to [generated_responses.json]. *)
Record Saved := {
  total_cases : nat;
  successful : nat;
  failed : nat;
  results : list Response
}.

Definition saved (responses : list Response) : Saved :=
  {| total_cases := length responses;
     successful := length (filter (fun r => is_some (response r)) responses);
     failed := length (filter (fun r => negb (is_some (response r))) responses);
     results := responses |}.

Definition valid_responses (responses : list Response) : list Response :=
  filter (fun r => is_some (response r)) responses.

Definition test_cases_valid (responses : list Response) : list TestCase :=
  map test_case (valid_responses responses).

Definition responses_valid (responses : list Response) : list (option str) :=
  map response (valid_responses responses).

(** [l[:n]] for any integer [n]: a negative [n] counts from the end. *)
Definition slice_to {A} (n : Z) (l : list A) : list A :=
  if n <? 0 then firstn (Z.to_nat (Z.of_nat (length l) + n)) l
  else firstn (Z.to_nat n) l.

(** The two lists handed to the human evaluation for an answer [asked] to
    "How many cases to review". *)
Definition to_review (asked : Z) (responses : list Response)
    : list TestCase * list (option str) :=
  let num_to_review := Z.min asked (Z.of_nat (length (valid_responses responses))) in
  (slice_to num_to_review (test_cases_valid responses),
   slice_to num_to_review (responses_valid responses)).

(** The questions of the test cases as the turns of a session. *)
Definition turns_of (test_cases : list (Services * TestCase)) : list (Services * str) :=
  map (fun c => (fst c, question (snd c))) test_cases.

(** What the turns of a session give, one after the other. *)
Fixpoint outcomes {U : CaseTables} (turns : list (Services * str)) (self : PatientChatbot)
    : list (exn + str) :=
  match turns with
  | [] => []
  | (sv, user_message) :: rest =>
      snd (chat sv self user_message) :: outcomes rest (fst (chat sv self user_message))
  end.

Section Facts.
Context {U : CaseTables}.

(** X14.  The runner gives every test case one entry, in the order of the
    test cases, whether the chatbot answered or raised; the counts of
    answered and failed cases add up to the total. *)
Theorem generate_responses_complete (test_cases : list (Services * TestCase))
    (chatbot : PatientChatbot) :
  let responses := snd (generate_responses test_cases chatbot) in
  map test_case responses = map snd test_cases /\
  total_cases (saved responses) = length test_cases /\
  (successful (saved responses) + failed (saved responses))%nat
    = total_cases (saved responses).
Proof.
  cbv zeta. split; [| split].
  - revert chatbot. induction test_cases as [|[sv tc] rest IH]; intros chatbot;
      [reflexivity |].
    cbn [generate_responses]. destruct (chat sv chatbot (question tc)) as [bot' outcome].
    specialize (IH bot'). destruct (generate_responses rest bot') as [bot'' rs].
    cbn [snd map] in *. rewrite IH. now destruct outcome.
  - revert chatbot. induction test_cases as [|[sv tc] rest IH]; intros chatbot;
      [reflexivity |].
    cbn [generate_responses]. destruct (chat sv chatbot (question tc)) as [bot' outcome].
    specialize (IH bot'). destruct (generate_responses rest bot') as [bot'' rs].
    cbn [snd saved total_cases length] in *. now rewrite IH.
  - generalize (snd (generate_responses test_cases chatbot)). intros rs.
    cbn [saved successful failed total_cases].
    induction rs as [|r rs IH]; [reflexivity |].
    cbn [filter length]. destruct (is_some (response r)); cbn [negb length]; lia.
Qed.

(** X15.  The test cases of a run share one conversation: the chatbot after
    the run is the chatbot after the questions asked as the turns of one
    session, and the entries record, case by case, what these turns gave:
    the reply, or no reply and the text of the exception. *)
Theorem generate_responses_one_session (test_cases : list (Services * TestCase))
    (chatbot : PatientChatbot) :
  fst (generate_responses test_cases chatbot) = chat_all (turns_of test_cases) chatbot /\
  map (fun r => (response r, error r)) (snd (generate_responses test_cases chatbot)) =
  map (fun outcome =>
         match outcome with
         | inr reply => (Some reply, None)
         | inl e => (None, Some (str_of_exn e))
         end)
      (outcomes (turns_of test_cases) chatbot).
Proof.
  revert chatbot. induction test_cases as [|[sv tc] rest IH]; intros chatbot;
    [split; reflexivity |].
  cbn [generate_responses turns_of map chat_all outcomes fst snd].
  destruct (chat sv chatbot (question tc)) as [bot' outcome] eqn:Ec.
  cbn [fst snd]. specialize (IH bot'). fold (turns_of rest).
  destruct (generate_responses rest bot') as [bot'' rs].
  cbn [fst snd map] in *. destruct IH as [IH1 IH2]. split; [exact IH1 |].
  rewrite IH2. now destruct outcome.
Qed.

Lemma slice_to_map {A B} (f : A -> B) (n : Z) (l : list A) :
  slice_to n (map f l) = map f (slice_to n l).
Proof.
  unfold slice_to. rewrite length_map. destruct (n <? 0); apply firstn_map.
Qed.

Lemma Forall_slice_to {A} (P : A -> Prop) (n : Z) (l : list A) :
  Forall P l -> Forall P (slice_to n l).
Proof.
  assert (forall k, Forall P l -> Forall P (firstn k l)) as Hk.
  { intros k H. rewrite <- (firstn_skipn k l) in H. now apply Forall_app in H as [H _]. }
  intros H. unfold slice_to. destruct (n <? 0); now apply Hk.
Qed.

Lemma length_slice_to {A} (n : Z) (l : list A) : (length (slice_to n l) <= length l)%nat.
Proof. unfold slice_to. destruct (n <? 0); rewrite length_firstn; lia. Qed.

(** X16.  Whatever number is typed, the test cases and the replies handed
    to the human evaluation pair up: the same entries in the same order,
    every one with a reply.  A negative number is not refused: it leaves
    out that many entries from the end. *)
Theorem to_review_aligned (asked : Z) (responses : list Response) :
  exists picked,
    fst (to_review asked responses) = map test_case picked /\
    snd (to_review asked responses) = map response picked /\
    Forall (fun r => is_some (response r) = true) picked /\
    (0 <= asked -> picked = firstn (Z.to_nat asked) (valid_responses responses)) /\
    (asked < 0 ->
     picked = firstn (length (valid_responses responses) - Z.to_nat (- asked))
                     (valid_responses responses)).
Proof.
  unfold to_review, test_cases_valid, responses_valid. cbv zeta.
  set (valid := valid_responses responses).
  set (n := Z.min asked (Z.of_nat (length valid))).
  exists (slice_to n valid). rewrite !slice_to_map.
  split; [reflexivity |]. split; [reflexivity |]. split; [| split].
  - assert (Forall (fun r => is_some (response r) = true) valid) as Hv.
    { apply Forall_forall. intros r Hr. unfold valid, valid_responses in Hr.
      now apply filter_In in Hr as [_ Hr]. }
    now apply Forall_slice_to.
  - intros H. unfold slice_to, n. destruct (Z.ltb_spec (Z.min asked (Z.of_nat (length valid))) 0);
      [lia |].
    destruct (Z.le_ge_cases asked (Z.of_nat (length valid))) as [Hle | Hge].
    + now rewrite Z.min_l by lia.
    + rewrite Z.min_r by lia. rewrite Nat2Z.id.
      rewrite firstn_all. symmetry. apply firstn_all2. lia.
  - intros H. unfold slice_to, n. rewrite Z.min_l by lia.
    destruct (Z.ltb_spec asked 0); [| lia]. f_equal. lia.
Qed.
End Facts.

End TestRunner.

(* ================================================================== *)
(** * The command loop ([main] of [patient_chatbot.py]) *)
(* ================================================================== *)

Module Cli.

(** What [get_conversation_summary] answers. *)
Record Summary := {
  total_conversations : Z;
  total_messages : Z;
  last_conversation : str
}.

(** How the loop was left: by a command, by the end of the input
    ([EOFError] from [input]) or by an exception of [chat]. *)
Inductive ended :=
| ByCommand
| ByEOFError
| ByException (e : exn).

(** [f"{n}"] for an integer. *)
Definition str_of_Z (n : Z) : str := s_ (NilZero.string_of_int (Z.to_int n)).

Definition BAR_CHART : str := [128202].   (* U+1F4CA *)

Definition PROMPT : str := NL ++ s_ "You: ".

Definition FAREWELL : str :=
  NL ++ s_ "Assistant: Take care! Contact your doctor with any concerns.".

Definition quit_commands : list str := [s_ "quit"; s_ "exit"; s_ "bye"].

(** An interpreter whose only white space is the blank and the tab, a memory
    without history and a save that changes nothing: a setting to run the
    loop in. *)
Definition blank_or_tab (c : Z) : bool := (c =? 32) || (c =? 9).
Definition no_history (m : ConversationMemory) (patient : str) : Summary :=
  {| total_conversations := 0; total_messages := 0; last_conversation := [] |}.
Definition keep (m : ConversationMemory) : ConversationMemory := m.

Section Loop.
Context {U : CaseTables}.

(** The white space of the interpreter ([str.isspace]), and the two methods
    of the conversation memory the loop reaches through the chatbot; the
    memory's module is not among the sources. *)
Variable isspace : Z -> bool.
Variable get_conversation_summary : ConversationMemory -> str -> Summary.
Variable save_conversation : ConversationMemory -> ConversationMemory.

Fixpoint lstrip (s : str) : str :=
  match s with
  | [] => []
  | c :: s' => if isspace c then lstrip s' else s
  end.

(** [s.strip()] *)
Definition strip (s : str) : str := rev (lstrip (rev (lstrip s))).

Definition get_patient_summary (self : PatientChatbot) : Summary :=
  get_conversation_summary (memory self) (patient_id self).

Definition end_conversation (self : PatientChatbot) : PatientChatbot :=
  set_memory self (save_conversation (memory self)).

(** [print(text)] *)
Definition print (out : list str) (text : str) : list str := out ++ [text ++ NL].

Definition summary_line (s : Summary) : str :=
  NL ++ BAR_CHART ++ s_ " Summary: " ++ str_of_Z (total_conversations s)
  ++ s_ " conversations, " ++ str_of_Z (total_messages s) ++ s_ " messages".

(** The [while True] loop over the lines typed, each with the services as
    they answer when it is read; [out] is what has been written so far. *)
Fixpoint loop (inputs : list (Services * str)) (chatbot : PatientChatbot)
    (out : list str) : PatientChatbot * list str * ended :=
  match inputs with
  | [] => (chatbot, out ++ [PROMPT], ByEOFError)
  | (sv, line) :: rest =>
      let out := out ++ [PROMPT] in
      let user_input := strip line in
      match user_input with
      | [] => loop rest chatbot out
      | _ =>
          if member (lower user_input) quit_commands then
            (chatbot, print out FAREWELL, ByCommand)
          else if str_eqb (lower user_input) (s_ "summary") then
            loop rest chatbot (print out (summary_line (get_patient_summary chatbot)))
          else
            match chat sv chatbot user_input with
            | (chatbot', inr response) =>
                loop rest chatbot' (print out (NL ++ s_ "Assistant: " ++ response))
            | (chatbot', inl e) => (chatbot', out, ByException e)
            end
      end
  end.

(** The loop with its [finally]: the conversation is ended however the loop
    was left. *)
Definition main_loop (inputs : list (Services * str)) (chatbot : PatientChatbot)
    : PatientChatbot * list str * ended :=
  let '(chatbot', out, how) := loop inputs chatbot [] in
  (end_conversation chatbot', out, how).

(** A line that is passed to the chatbot: not blank, not a command. *)
Definition is_question (line : str) : bool :=
  match strip line with
  | [] => false
  | user_input =>
      negb (member (lower user_input) quit_commands) &&
      negb (str_eqb (lower user_input) (s_ "summary"))
  end.

Definition questions (inputs : list (Services * str)) : list (Services * str) :=
  map (fun i => (fst i, strip (snd i))) (filter (fun i => is_question (snd i)) inputs).

Lemma chat_raised_unchanged (sv : Services) (self self' : PatientChatbot)
    (user_message : str) (e : exn) :
  chat sv self user_message = (self', inl e) -> self' = self.
Proof.
  unfold chat. destruct (rag_chain_invoke sv self user_message _); [| discriminate].
  intros H. now injection H as <- _.
Qed.

Lemma loop_questions (inputs : list (Services * str)) : forall chatbot out,
  exists n,
    (n <= length inputs)%nat /\
    fst (fst (loop inputs chatbot out)) = chat_all (questions (firstn n inputs)) chatbot /\
    (snd (loop inputs chatbot out) = ByEOFError -> n = length inputs).
Proof.
  induction inputs as [|[sv line] rest IH]; intros chatbot out.
  - exists 0%nat. repeat split. simpl. lia.
  - cbn [loop]. unfold questions.
    destruct (strip line) as [|c user_input] eqn:Es.
    + destruct (IH chatbot (out ++ [PROMPT])) as (n & Hle & Hn & Heof). exists (S n).
      cbn [firstn filter snd length]. unfold is_question. rewrite Es.
      split; [lia |]. split; [exact Hn |]. intros H. now rewrite (Heof H).
    + destruct (member (lower (c :: user_input)) quit_commands) eqn:Eq.
      * exists 0%nat. split; [simpl; lia |]. split; [reflexivity | discriminate].
      * destruct (str_eqb (lower (c :: user_input)) (s_ "summary")) eqn:Esum.
        -- destruct (IH chatbot (print (out ++ [PROMPT])
                                   (summary_line (get_patient_summary chatbot))))
             as (n & Hle & Hn & Heof).
           exists (S n). cbn [firstn filter snd length]. unfold is_question.
           rewrite Es, Eq, Esum.
           split; [lia |]. split; [exact Hn |]. intros H. now rewrite (Heof H).
        -- destruct (chat sv chatbot (c :: user_input)) as [bot' [e | response]] eqn:Ec.
           ++ exists 1%nat. cbn [firstn filter snd fst length]. unfold is_question.
              rewrite Es, Eq, Esum. cbn [negb andb map fst snd chat_all].
              rewrite Es, Ec. split; [lia |]. split; [reflexivity | discriminate].
           ++ destruct (IH bot' (print (out ++ [PROMPT])
                                   (NL ++ s_ "Assistant: " ++ response)))
                as (n & Hle & Hn & Heof).
              exists (S n). cbn [firstn filter snd length]. unfold is_question.
              rewrite Es, Eq, Esum. cbn [negb andb map fst snd chat_all].
              rewrite Es, Ec.
              split; [lia |]. split; [exact Hn |]. intros H. now rewrite (Heof H).
Qed.


(** X18.  A line that reads quit, exit or bye, in any letter case and with
    white space around it, ends the loop at once: the farewell is printed,
    the conversation is ended on the chatbot as it is, and nothing typed
    after it is read. *)
Theorem main_loop_quit (sv : Services) (line : str) (rest : list (Services * str))
    (chatbot : PatientChatbot) :
  member (lower (strip line)) quit_commands = true ->
  main_loop ((sv, line) :: rest) chatbot =
  (end_conversation chatbot, [PROMPT; FAREWELL ++ NL], ByCommand).
Proof.
  intros H. unfold main_loop. cbn [loop].
  destruct (strip line) as [|c user_input] eqn:Es.
  - unfold lower in H. discriminate H.
  - now rewrite H.
Qed.
End Loop.

Lemma main_loop_quit_witness :
  @main_loop ascii_tables blank_or_tab no_history keep
    [(answering (s_ "ok"), s_ "  QUIT "); (answering (s_ "ok"), s_ "I feel dizzy")]
    new_patient
  = (new_patient, [PROMPT; FAREWELL ++ NL], ByCommand).
Proof.
  apply (@main_loop_quit ascii_tables blank_or_tab no_history keep
           (answering (s_ "ok")) (s_ "  QUIT ")
           [(answering (s_ "ok"), s_ "I feel dizzy")] new_patient).
  reflexivity.
Defined.

End Cli.

(* ================================================================== *)
(** * Comparing the evaluations ([compare_evaluations.py]) *)
(* ================================================================== *)

Module CompareEvaluations.

(** The numbers of the result files and the interpreter's arithmetic on
    them (integers and floats), taken as given: nothing below depends on
    what a sum or a quotient comes to. *)
Class Numbers := {
  num : Type;
  of_Z : Z -> num;
  two_and_a_half : num;             (* the float [2.5] *)
  sub : num -> num -> num;
  mul : num -> num -> num;
  absolute : num -> num;
  leb : num -> num -> bool;
  quotient : Z -> Z -> num;        (* [a / b] for a [b] that is not zero *)
  mean_of : list num -> num;       (* [statistics.mean] of a list that is not empty *)
  max_of : list num -> num;        (* [max] of a list that is not empty *)
  format_1f : num -> str           (* [f"{x:.1f}"] *)
}.

Inductive error :=
| ZeroDivisionError
| StatisticsError
| ValueError
| KeyError.

Definition bind {A B} (x : error + A) (f : A -> error + B) : error + B :=
  match x with
  | inl e => inl e
  | inr a => f a
  end.

Notation "x <- c1 ;; c2" := (bind c1 (fun x => c2))
  (at level 61, c1 at next level, right associativity).

Definition UNKNOWN : str := s_ "UNKNOWN".
Definition PASS : str := s_ "PASS".
Definition FAIL : str := s_ "FAIL".
Definition ELLIPSIS : str := s_ "...".

(** [d.get(key, default)] once the key has been looked up. *)
Definition get_or {A} (v : option A) (default : A) : A :=
  match v with Some a => a | None => default end.

(** [d[k] = v] on a dictionary kept in insertion order: a key that is there
    keeps its place and takes the new value. *)
Fixpoint dict_set {V} (k : str) (v : V) (d : list (str * V)) : list (str * V) :=
  match d with
  | [] => [(k, v)]
  | (k', v') :: d' => if str_eqb k' k then (k', v) :: d' else (k', v') :: dict_set k v d'
  end.

(** [d.get(k)] *)
Fixpoint dict_get {V} (k : str) (d : list (str * V)) : option V :=
  match d with
  | [] => None
  | (k', v') :: d' => if str_eqb k' k then Some v' else dict_get k d'
  end.

Section Compare.
Context {N : Numbers}.

(** [a / b] *)
Definition truediv (a b : Z) : error + num :=
  if b =? 0 then inl ZeroDivisionError else inr (quotient a b).

(** [statistics.mean(l)] *)
Definition mean (l : list num) : error + num :=
  match l with
  | [] => inl StatisticsError
  | _ => inr (mean_of l)
  end.

(** The evaluation of the judge: the keys the comparison reads. *)
Record LLMEvaluation := {
  recommended_action : option str;
  overall_assessment : option (option num);   (* its ['percentage'], when there *)
  scored : list (str * option num)            (* dimension, its ['score'] when there *)
}.

Record LLMResult := {
  l_test_case_id : str;
  l_question : str;
  l_response : str;
  l_evaluation : LLMEvaluation
}.

Record HumanEvaluation := {
  verdict : option str;
  overall_rating : option num;
  comments : option str;
  ratings : option (list (str * num))
}.

Record HumanResult := {
  h_test_case_id : str;
  h_evaluation : HumanEvaluation
}.

Record Matched := {
  test_case_id : str;
  question : str;
  llm : LLMResult;
  human : HumanResult
}.

(** [{result['test_case_id']: result for result in results}] *)
Definition by_id {R} (key : R -> str) (results : list R) : list (str * R) :=
  fold_left (fun d r => dict_set (key r) r d) results [].

Fixpoint match_ids (llm_by_id : list (str * LLMResult))
    (human_by_id : list (str * HumanResult)) : list Matched :=
  match llm_by_id with
  | [] => []
  | (test_id, l) :: rest =>
      match dict_get test_id human_by_id with
      | Some h =>
          {| test_case_id := test_id; question := l_question l; llm := l; human := h |}
          :: match_ids rest human_by_id
      | None => match_ids rest human_by_id
      end
  end.

Definition match_evaluations (llm_results : list LLMResult)
    (human_results : list HumanResult) : list Matched :=
  match_ids (by_id l_test_case_id llm_results) (by_id h_test_case_id human_results).

Definition llm_verdict_of (c : Matched) : str :=
  get_or (recommended_action (l_evaluation (llm c))) UNKNOWN.

Definition human_verdict_of (c : Matched) : str :=
  get_or (verdict (h_evaluation (human c))) UNKNOWN.

(** [llm_eval.get('overall_assessment', {}).get('percentage', 0)] *)
Definition llm_score_of (c : Matched) : num :=
  get_or (get_or (overall_assessment (l_evaluation (llm c))) None) (of_Z 0).

(** [human_eval.get('overall_rating', 0) * 20] *)
Definition human_score_of (c : Matched) : num :=
  mul (get_or (overall_rating (h_evaluation (human c))) (of_Z 0)) (of_Z 20).

Record Disagreement := {
  d_test_case_id : str;
  d_question : str;
  d_llm_verdict : str;
  d_human_verdict : str
}.

(** The counters and lists of the loop of [calculate_agreement]. *)
Record Tally := {
  agree_verdict : nat;
  agree_overall_similar : nat;
  disagreements : list Disagreement;
  score_differences : list num
}.

Definition tally_case (t : Tally) (c : Matched) : Tally :=
  let llm_verdict := llm_verdict_of c in
  let human_verdict := human_verdict_of c in
  let same := str_eqb llm_verdict human_verdict in
  let score_diff := absolute (sub (llm_score_of c) (human_score_of c)) in
  {| agree_verdict := if same then S (agree_verdict t) else agree_verdict t;
     agree_overall_similar :=
       if leb score_diff (of_Z 10) then S (agree_overall_similar t)
       else agree_overall_similar t;
     disagreements :=
       if same then disagreements t
       else disagreements t ++
            [ {| d_test_case_id := test_case_id c;
                 d_question := firstn 80 (question c) ++ ELLIPSIS;
                 d_llm_verdict := llm_verdict;
                 d_human_verdict := human_verdict |} ];
     score_differences := score_differences t ++ [score_diff] |}.

Definition tally (matched_cases : list Matched) : Tally :=
  fold_left tally_case matched_cases
    {| agree_verdict := 0; agree_overall_similar := 0;
       disagreements := []; score_differences := [] |}.

Record Share := {
  count : nat;
  percentage : num
}.

Record Agreement := {
  total_cases : nat;
  verdict_agreement : Share;
  score_similarity : Share;
  avg_score_difference : num;
  all_disagreements : list Disagreement;
  all_score_differences : list num
}.

(** [(count / total * 100) if total > 0 else 0] *)
Definition share (n total : nat) : error + Share :=
  p <- (if (0 <? total)%nat
        then q <- truediv (Z.of_nat n) (Z.of_nat total) ;; inr (mul q (of_Z 100))
        else inr (of_Z 0)) ;;
  inr {| count := n; percentage := p |}.

Definition calculate_agreement (matched_cases : list Matched) : error + Agreement :=
  let t := tally matched_cases in
  let total := length matched_cases in
  v <- share (agree_verdict t) total ;;
  s <- share (agree_overall_similar t) total ;;
  a <- (match score_differences t with
        | [] => inr (of_Z 0)
        | diffs => mean diffs
        end) ;;
  inr {| total_cases := total;
         verdict_agreement := v;
         score_similarity := s;
         avg_score_difference := a;
         all_disagreements := disagreements t;
         all_score_differences := score_differences t |}.

Record MajorDisagreement := {
  m_test_case_id : str;
  m_question : str;
  m_response : str;
  m_llm_verdict : str;
  m_llm_score : str;
  m_human_verdict : str;
  m_human_score : str;
  m_human_comments : str
}.

(** One says PASS and the other FAIL. *)
Definition opposed (llm_verdict human_verdict : str) : bool :=
  (str_eqb llm_verdict PASS && str_eqb human_verdict FAIL) ||
  (str_eqb llm_verdict FAIL && str_eqb human_verdict PASS).

Fixpoint find_major_disagreements (matched_cases : list Matched) : list MajorDisagreement :=
  match matched_cases with
  | [] => []
  | c :: rest =>
      let llm_verdict := llm_verdict_of c in
      let human_verdict := human_verdict_of c in
      if opposed llm_verdict human_verdict then
        {| m_test_case_id := test_case_id c;
           m_question := question c;
           m_response := firstn 200 (l_response (llm c)) ++ ELLIPSIS;
           m_llm_verdict := llm_verdict;
           m_llm_score := format_1f (llm_score_of c) ++ s_ "%";
           m_human_verdict := human_verdict;
           m_human_score := format_1f (human_score_of c) ++ s_ "%";
           m_human_comments := get_or (comments (h_evaluation (human c))) [] |}
        :: find_major_disagreements rest
      else find_major_disagreements rest
  end.
(** [max(l)] *)
Definition maximum (l : list num) : error + num :=
  match l with
  | [] => inl ValueError
  | _ => inr (max_of l)
  end.

(** The judge's dimensions and the human rating each one is compared with,
    in the order the dictionary is written. *)
Definition dimension_mapping : list (str * str) :=
  [ (s_ "medical_accuracy", s_ "medical_accuracy");
    (s_ "safety", s_ "medical_accuracy");
    (s_ "patient_friendliness", s_ "empathy");
    (s_ "actionability", s_ "actionability");
    (s_ "scope_appropriateness", s_ "appropriateness") ].

(** [{dim: [] for dim in dimension_mapping.values()}] *)
Definition initial_diffs : list (str * list num) :=
  fold_left (fun d dim => dict_set dim [] d) (map snd dimension_mapping) [].

(** [d[k].append(x)] *)
Definition dict_append (k : str) (x : num) (d : list (str * list num))
    : error + list (str * list num) :=
  match dict_get k d with
  | Some l => inr (dict_set k (l ++ [x]) d)
  | None => inl KeyError
  end.

Definition compare_dimension (c : Matched) (d : list (str * list num))
    (dims : str * str) : error + list (str * list num) :=
  let (llm_dim, human_dim) := dims in
  let human_ratings := get_or (ratings (h_evaluation (human c))) [] in
  match dict_get llm_dim (scored (l_evaluation (llm c))),
        dict_get human_dim human_ratings with
  | Some entry, Some human_score =>
      let llm_score := get_or entry (of_Z 0) in
      let llm_normalized := llm_score in
      let human_normalized := mul (sub human_score (of_Z 1)) two_and_a_half in
      let diff := absolute (sub llm_normalized human_normalized) in
      dict_append human_dim diff d
  | _, _ => inr d
  end.

(** A loop whose body may raise. *)
Fixpoint for_each {A S} (body : S -> A -> error + S) (items : list A) (s : S)
    : error + S :=
  match items with
  | [] => inr s
  | x :: rest => s' <- body s x ;; for_each body rest s'
  end.

Record DimensionStats := {
  avg_difference : num;
  max_difference : num;
  samples : nat
}.

Definition dimension_stats (stats : list (str * DimensionStats))
    (item : str * list num) : error + list (str * DimensionStats) :=
  let (dim, diffs) := item in
  match diffs with
  | [] => inr stats
  | _ =>
      a <- mean diffs ;;
      m <- maximum diffs ;;
      inr (dict_set dim {| avg_difference := a; max_difference := m;
                           samples := length diffs |} stats)
  end.

Definition analyze_dimension_agreement (matched_cases : list Matched)
    : error + list (str * DimensionStats) :=
  dimension_diffs <-
    for_each (fun d c => for_each (compare_dimension c) dimension_mapping d)
             matched_cases initial_diffs ;;
  for_each dimension_stats dimension_diffs [].
(** What a case adds to the list of disagreements. *)
Definition disagreement_of (c : Matched) : list Disagreement :=
  if str_eqb (llm_verdict_of c) (human_verdict_of c) then []
  else [ {| d_test_case_id := test_case_id c;
            d_question := firstn 80 (question c) ++ ELLIPSIS;
            d_llm_verdict := llm_verdict_of c;
            d_human_verdict := human_verdict_of c |} ].

(** The human ratings the judge's dimensions are compared with. *)
Definition human_dimensions : list str :=
  [s_ "medical_accuracy"; s_ "empathy"; s_ "actionability"; s_ "appropriateness"].

(** How many of the judge's dimensions are compared with the rating [k]. *)
Definition multiplicity (k : str) : nat :=
  length (filter (fun p => str_eqb (snd p) k) dimension_mapping).

(** How many differences are filed under [k]. *)
Definition filed_under (d : list (str * list num)) (k : str) : nat :=
  length (get_or (dict_get k d) []).

End Compare.

(** The last of [results] filed under [k]. *)
Definition last_with {R} (key : R -> str) (k : str) (results : list R) : option R :=
  find (fun r => str_eqb (key r) k) (rev results).

Definition is_some {A} (o : option A) : bool :=
  match o with Some _ => true | None => false end.

Lemma find_over_app {A} (f : A -> bool) (l l' : list A) :
  find f (l ++ l') = match find f l with Some x => Some x | None => find f l' end.
Proof.
  induction l as [|x l IH]; [reflexivity |]. cbn [app find]. now destruct (f x).
Qed.

Section DictFacts.
Context {V : Type}.

Lemma dict_get_set_same (k : str) (v : V) (d : list (str * V)) :
  dict_get k (dict_set k v d) = Some v.
Proof.
  induction d as [|[k' v'] d IH]; cbn [dict_set dict_get].
  - now rewrite str_eqb_refl.
  - destruct (str_eqb k' k) eqn:E; cbn [dict_get]; rewrite E; [reflexivity | exact IH].
Qed.

Lemma dict_get_set_other (k k0 : str) (v : V) (d : list (str * V)) :
  k0 <> k -> dict_get k0 (dict_set k v d) = dict_get k0 d.
Proof.
  intros Hne. induction d as [|[k' v'] d IH]; cbn [dict_set dict_get].
  - destruct (str_eqb k k0) eqn:E; [| reflexivity].
    apply str_eqb_eq in E. congruence.
  - destruct (str_eqb k' k) eqn:E; cbn [dict_get].
    + apply str_eqb_eq in E. subst k'.
      destruct (str_eqb k k0) eqn:E0; [| reflexivity].
      apply str_eqb_eq in E0. congruence.
    + now rewrite IH.
Qed.

Lemma dict_get_In (k : str) (d : list (str * V)) :
  is_some (dict_get k d) = true <-> In k (map fst d).
Proof.
  induction d as [|[k' v'] d IH]; cbn [dict_get map fst In].
  - split; [discriminate | intros []].
  - destruct (str_eqb k' k) eqn:E.
    + apply str_eqb_eq in E. split; [intros _; now left | reflexivity].
    + rewrite IH. split; [now right | intros [H | H]; [| exact H]].
      subst k'. now rewrite str_eqb_refl in E.
Qed.

Lemma dict_get_entry (k : str) (v : V) (d : list (str * V)) :
  NoDup (map fst d) -> In (k, v) d -> dict_get k d = Some v.
Proof.
  induction d as [|[k' v'] d IH]; intros Hnd Hin; [destruct Hin |].
  inversion Hnd as [|? ? Hnotin Hnd']; subst. cbn [dict_get].
  destruct Hin as [E | Hin].
  - injection E as -> ->. now rewrite str_eqb_refl.
  - destruct (str_eqb k' k) eqn:E; [| now apply IH].
    apply str_eqb_eq in E. subst k'. exfalso. apply Hnotin.
    change k with (fst (k, v)). now apply in_map.
Qed.

Lemma dict_set_keys_In (k k0 : str) (v : V) (d : list (str * V)) :
  In k0 (map fst (dict_set k v d)) <-> k0 = k \/ In k0 (map fst d).
Proof.
  induction d as [|[k' v'] d IH]; cbn [dict_set map fst In].
  - intuition.
  - destruct (str_eqb k' k) eqn:E; cbn [map fst In].
    + apply str_eqb_eq in E. subst k'. intuition.
    + rewrite IH. intuition.
Qed.

Lemma dict_set_nodup (k : str) (v : V) (d : list (str * V)) :
  NoDup (map fst d) -> NoDup (map fst (dict_set k v d)).
Proof.
  induction d as [|[k' v'] d IH]; intros Hnd; cbn [dict_set map fst].
  - constructor; [intros [] | constructor].
  - inversion Hnd as [|? ? Hnotin Hnd']; subst.
    destruct (str_eqb k' k) eqn:E; cbn [map fst]; [exact Hnd |].
    constructor; [| now apply IH].
    intros Hin. apply dict_set_keys_In in Hin as [-> | Hin]; [| contradiction].
    now rewrite str_eqb_refl in E.
Qed.

Variable key : V -> str.

Let filed (d : list (str * V)) (results : list V) : list (str * V) :=
  fold_left (fun d r => dict_set (key r) r d) results d.

Lemma filed_nodup (results : list V) : forall d,
  NoDup (map fst d) -> NoDup (map fst (filed d results)).
Proof.
  induction results as [|r results IH]; intros d Hnd; [exact Hnd |].
  apply IH. now apply dict_set_nodup.
Qed.

Lemma filed_keys_In (k : str) (results : list V) : forall d,
  In k (map fst (filed d results)) <-> In k (map fst d) \/ In k (map key results).
Proof.
  induction results as [|r results IH]; intros d; cbn [fold_left map In filed].
  - intuition.
  - fold (filed (dict_set (key r) r d) results). rewrite IH, dict_set_keys_In.
    intuition.
Qed.

Lemma filed_get (k : str) (results : list V) : forall d,
  dict_get k (filed d results) =
  match last_with key k results with
  | Some r => Some r
  | None => dict_get k d
  end.
Proof.
  unfold last_with. induction results as [|r results IH]; intros d; [reflexivity |].
  cbn [fold_left filed rev]. fold (filed (dict_set (key r) r d) results).
  rewrite IH, find_over_app.
  destruct (find (fun r0 => str_eqb (key r0) k) (rev results)); [reflexivity |].
  cbn [find]. destruct (str_eqb (key r) k) eqn:E.
  - apply str_eqb_eq in E. subst k. apply dict_get_set_same.
  - apply dict_get_set_other. intros ->. now rewrite str_eqb_refl in E.
Qed.

Lemma by_id_nodup (results : list V) : NoDup (map fst (by_id key results)).
Proof. apply filed_nodup. constructor. Qed.

Lemma by_id_keys_In (k : str) (results : list V) :
  In k (map fst (by_id key results)) <-> In k (map key results).
Proof. unfold by_id. fold (filed [] results). rewrite filed_keys_In. simpl. tauto. Qed.

Lemma by_id_get (k : str) (results : list V) :
  dict_get k (by_id key results) = last_with key k results.
Proof.
  unfold by_id. fold (filed [] results). rewrite filed_get.
  now destruct (last_with key k results).
Qed.
End DictFacts.

Section CompareFacts.
Context {N : Numbers}.

Lemma match_ids_ids (L : list (str * LLMResult)) (H : list (str * HumanResult)) :
  map test_case_id (match_ids L H) =
  filter (fun k => is_some (dict_get k H)) (map fst L).
Proof.
  induction L as [|[k l] L IH]; [reflexivity |].
  cbn [match_ids map fst filter]. destruct (dict_get k H); cbn [is_some map test_case_id];
    now rewrite IH.
Qed.

Lemma match_ids_entry (L : list (str * LLMResult)) (H : list (str * HumanResult))
    (c : Matched) :
  In c (match_ids L H) ->
  In (test_case_id c, llm c) L /\
  dict_get (test_case_id c) H = Some (human c) /\
  question c = l_question (llm c).
Proof.
  induction L as [|[k l] L IH]; [intros [] |].
  cbn [match_ids]. destruct (dict_get k H) as [h |] eqn:E.
  - intros [<- | Hin]; [cbn; auto |].
    destruct (IH Hin) as (H1 & H2 & H3). auto using in_cons.
  - intros Hin. destruct (IH Hin) as (H1 & H2 & H3). auto using in_cons.
Qed.

(** X19.  A test case is matched exactly when both files have its id, and
    once only, however often the id occurs; the matched entry pairs the
    last result each file has under the id, with the question of the
    judge's result. *)
Theorem match_evaluations_spec (llm_results : list LLMResult)
    (human_results : list HumanResult) :
  let matched := match_evaluations llm_results human_results in
  NoDup (map test_case_id matched) /\
  (forall k, In k (map test_case_id matched) <->
             In k (map l_test_case_id llm_results) /\
             In k (map h_test_case_id human_results)) /\
  (forall c, In c matched ->
             last_with l_test_case_id (test_case_id c) llm_results = Some (llm c) /\
             last_with h_test_case_id (test_case_id c) human_results = Some (human c) /\
             question c = l_question (llm c)).
Proof.
  cbv zeta. unfold match_evaluations. split; [| split].
  - rewrite match_ids_ids. apply NoDup_filter, by_id_nodup.
  - intros k. rewrite match_ids_ids, filter_In, dict_get_In, !by_id_keys_In. tauto.
  - intros c Hin. apply match_ids_entry in Hin as (Hl & Hh & Hq).
    rewrite by_id_get in Hh. split; [| split; assumption].
    rewrite <- by_id_get. apply dict_get_entry; [apply by_id_nodup | exact Hl].
Qed.

Lemma tally_case_step (t0 : Tally) (c : Matched) :
  (agree_verdict (tally_case t0 c) + length (disagreements (tally_case t0 c))
   = agree_verdict t0 + length (disagreements t0) + 1)%nat /\
  length (score_differences (tally_case t0 c)) = (length (score_differences t0) + 1)%nat /\
  (agree_overall_similar (tally_case t0 c) <= agree_overall_similar t0 + 1)%nat /\
  disagreements (tally_case t0 c) = disagreements t0 ++ disagreement_of c.
Proof.
  unfold tally_case, disagreement_of. cbv zeta.
  cbn [agree_verdict agree_overall_similar disagreements score_differences].
  destruct (str_eqb (llm_verdict_of c) (human_verdict_of c));
    destruct (leb _ _); rewrite ?length_app; cbn [length];
    rewrite ?app_nil_r; repeat split; lia.
Qed.

Lemma tally_from (cases : list Matched) : forall t0,
  let t := fold_left tally_case cases t0 in
  (agree_verdict t + length (disagreements t)
   = agree_verdict t0 + length (disagreements t0) + length cases)%nat /\
  length (score_differences t) = (length (score_differences t0) + length cases)%nat /\
  (agree_overall_similar t <= agree_overall_similar t0 + length cases)%nat /\
  disagreements t = disagreements t0 ++ flat_map disagreement_of cases.
Proof.
  induction cases as [|c cases IH]; intros t0; cbn [fold_left length flat_map].
  - rewrite app_nil_r. repeat split; lia.
  - destruct (IH (tally_case t0 c)) as (H1 & H2 & H3 & H4).
    destruct (tally_case_step t0 c) as (S1 & S2 & S3 & S4). cbv zeta in *.
    split; [lia |]. split; [lia |]. split; [lia |].
    now rewrite H4, S4, <- app_assoc.
Qed.

Lemma share_ok (n total : nat) :
  exists s, share n total = inr s /\ count s = n /\
            (total = 0%nat -> percentage s = of_Z 0).
Proof.
  unfold share. destruct (Nat.ltb_spec 0 total) as [Hpos | Hzero].
  - unfold truediv. destruct (Z.eqb_spec (Z.of_nat total) 0) as [E | _]; [lia |].
    cbn [bind]. eexists. split; [reflexivity |]. split; [reflexivity | lia].
  - cbn [bind]. eexists. split; [reflexivity |]. split; reflexivity.
Qed.

Lemma disagreement_of_ok (c : Matched) :
  Forall (fun d => d_llm_verdict d <> d_human_verdict d /\
                   (length (d_question d) <= 83)%nat /\
                   exists q, d_question d = q ++ ELLIPSIS)
         (disagreement_of c).
Proof.
  unfold disagreement_of.
  destruct (str_eqb (llm_verdict_of c) (human_verdict_of c)) eqn:E; constructor;
    [| constructor].
  cbn [d_llm_verdict d_human_verdict d_question]. split; [| split].
  - intros Heq. apply str_eqb_eq in Heq. congruence.
  - rewrite length_app, length_firstn. change (length ELLIPSIS) with 3%nat. lia.
  - now exists (firstn 80 (question c)).
Qed.


Lemma opposed_differ (a b : str) : opposed a b = true -> str_eqb a b = false.
Proof.
  unfold opposed. intros H. destruct (str_eqb a b) eqn:E; [| reflexivity].
  apply str_eqb_eq in E. subst b.
  apply orb_true_iff in H as [H | H]; apply andb_true_iff in H as [H1 H2];
    apply str_eqb_eq in H1, H2; subst a; discriminate H2.
Qed.

Lemma major_among_disagreements (matched_cases : list Matched) :
  map m_test_case_id (find_major_disagreements matched_cases) =
  map d_test_case_id
      (filter (fun d => opposed (d_llm_verdict d) (d_human_verdict d))
              (flat_map disagreement_of matched_cases)).
Proof.
  induction matched_cases as [|c cases IH]; [reflexivity |].
  cbn [find_major_disagreements flat_map]. cbv zeta. rewrite filter_app, map_app, <- IH.
  unfold disagreement_of.
  destruct (opposed (llm_verdict_of c) (human_verdict_of c)) eqn:E.
  - rewrite (opposed_differ _ _ E). cbn [filter d_llm_verdict d_human_verdict].
    rewrite E. reflexivity.
  - destruct (str_eqb (llm_verdict_of c) (human_verdict_of c)); [reflexivity |].
    cbn [filter d_llm_verdict d_human_verdict]. now rewrite E.
Qed.

Lemma find_major_verdicts (matched_cases : list Matched) :
  Forall (fun m => (m_llm_verdict m = PASS /\ m_human_verdict m = FAIL) \/
                   (m_llm_verdict m = FAIL /\ m_human_verdict m = PASS))
         (find_major_disagreements matched_cases).
Proof.
  induction matched_cases as [|c cases IH]; [constructor |].
  cbn [find_major_disagreements]. cbv zeta.
  destruct (opposed (llm_verdict_of c) (human_verdict_of c)) eqn:E; [| exact IH].
  constructor; [| exact IH]. cbn [m_llm_verdict m_human_verdict].
  unfold opposed in E. apply orb_true_iff in E as [E | E];
    apply andb_true_iff in E as [E1 E2]; apply str_eqb_eq in E1, E2; auto.
Qed.


Lemma initial_diffs_keys : map fst initial_diffs = human_dimensions.
Proof. reflexivity. Qed.

Lemma initial_diffs_empty (k : str) : filed_under initial_diffs k = 0%nat.
Proof.
  assert (initial_diffs = map (fun dim => (dim, [])) human_dimensions) as ->
    by reflexivity.
  unfold filed_under. induction human_dimensions as [|dim dims IH]; [reflexivity |].
  cbn [map dict_get]. destruct (str_eqb dim k); [reflexivity | exact IH].
Qed.

Lemma dict_set_keys_same {V} (k : str) (v : V) (d : list (str * V)) :
  In k (map fst d) -> map fst (dict_set k v d) = map fst d.
Proof.
  induction d as [|[k' v'] d IH]; [intros [] |].
  cbn [dict_set map fst In]. destruct (str_eqb k' k) eqn:E; [reflexivity |].
  intros [-> | Hin]; [now rewrite str_eqb_refl in E |].
  cbn [map fst]. now rewrite IH.
Qed.

Lemma dict_set_Forall {V} (Q : str * V -> Prop) (k : str) (v : V) (d : list (str * V)) :
  Forall Q d -> Q (k, v) -> Forall Q (dict_set k v d).
Proof.
  intros Hd Hq. induction Hd as [|[k' v'] d Hx Hd IH]; cbn [dict_set].
  - constructor; [exact Hq | constructor].
  - destruct (str_eqb k' k) eqn:E.
    + apply str_eqb_eq in E. subst k'. now constructor.
    + now constructor.
Qed.

Lemma compare_dimension_ok (c : Matched) (d : list (str * list num)) (dims : str * str) :
  In (snd dims) (map fst d) ->
  exists d', compare_dimension c d dims = inr d' /\
             map fst d' = map fst d /\
             forall k, (filed_under d' k
                        <= filed_under d k + if str_eqb (snd dims) k then 1 else 0)%nat.
Proof.
  destruct dims as [llm_dim human_dim]. cbn [snd]. intros Hin.
  unfold compare_dimension. cbv zeta.
  destruct (dict_get llm_dim _) as [entry |];
    [| exists d; split; [reflexivity | split; [reflexivity | intros; lia]]].
  destruct (dict_get human_dim (get_or _ _)) as [human_score |];
    [| exists d; split; [reflexivity | split; [reflexivity | intros; lia]]].
  unfold dict_append. destruct (dict_get human_dim d) as [l |] eqn:El.
  - eexists. split; [reflexivity |]. split; [now apply dict_set_keys_same |].
    intros k. unfold filed_under. destruct (str_eqb human_dim k) eqn:E.
    + apply str_eqb_eq in E. subst k. rewrite dict_get_set_same, El. cbn [get_or].
      rewrite length_app. simpl. lia.
    + rewrite dict_get_set_other; [lia |]. intros ->. now rewrite str_eqb_refl in E.
  - apply dict_get_In in Hin. rewrite El in Hin. discriminate Hin.
Qed.

Lemma compare_dimensions_ok (c : Matched) (pairs : list (str * str)) :
  forall d,
    (forall p, In p pairs -> In (snd p) (map fst d)) ->
    exists d', for_each (compare_dimension c) pairs d = inr d' /\
               map fst d' = map fst d /\
               forall k, (filed_under d' k
                          <= filed_under d k
                             + length (filter (fun p => str_eqb (snd p) k) pairs))%nat.
Proof.
  induction pairs as [|p pairs IH]; intros d Hkeys.
  - exists d. split; [reflexivity |]. split; [reflexivity |]. intros k. simpl. lia.
  - destruct (compare_dimension_ok c d p (Hkeys p (or_introl eq_refl)))
      as (d1 & E1 & K1 & L1).
    destruct (IH d1) as (d2 & E2 & K2 & L2).
    { intros q Hq. rewrite K1. apply Hkeys. now right. }
    exists d2. cbn [for_each]. rewrite E1. cbn [bind]. split; [exact E2 |].
    split; [congruence |]. intros k. specialize (L1 k). specialize (L2 k).
    cbn [filter]. destruct (str_eqb (snd p) k); cbn [length]; lia.
Qed.

Lemma compare_cases_ok (cases : list Matched) :
  forall d,
    map fst d = human_dimensions ->
    exists d', for_each (fun d c => for_each (compare_dimension c) dimension_mapping d)
                        cases d = inr d' /\
               map fst d' = human_dimensions /\
               forall k, (filed_under d' k
                          <= filed_under d k + length cases * multiplicity k)%nat.
Proof.
  induction cases as [|c cases IH]; intros d Hkeys.
  - exists d. split; [reflexivity |]. split; [exact Hkeys |]. intros k. simpl. lia.
  - destruct (compare_dimensions_ok c dimension_mapping d) as (d1 & E1 & K1 & L1).
    { intros p Hp. rewrite Hkeys. unfold dimension_mapping in Hp. simpl in Hp.
      unfold human_dimensions.
      repeat (destruct Hp as [<- | Hp]; [simpl; auto |]). destruct Hp. }
    destruct (IH d1) as (d2 & E2 & K2 & L2); [congruence |].
    exists d2. cbn [for_each]. rewrite E1. cbn [bind]. split; [exact E2 |].
    split; [exact K2 |]. intros k. specialize (L1 k). specialize (L2 k).
    fold (multiplicity k) in L1. cbn [length]. lia.
Qed.

Lemma dimension_stats_ok (all items : list (str * list num)) :
  incl items all ->
  forall stats,
    NoDup (map fst stats) ->
    Forall (fun e => exists diffs, In (fst e, diffs) all /\ diffs <> [] /\
                                   samples (snd e) = length diffs) stats ->
    exists stats',
      for_each dimension_stats items stats = inr stats' /\
      NoDup (map fst stats') /\
      Forall (fun e => exists diffs, In (fst e, diffs) all /\ diffs <> [] /\
                                     samples (snd e) = length diffs) stats'.
Proof.
  induction items as [|[dim diffs] items IH]; intros Hincl stats Hnd Hq.
  - now exists stats.
  - assert (incl items all) as Hincl' by (intros x Hx; apply Hincl; now right).
    cbn [for_each dimension_stats]. destruct diffs as [|x xs].
    + cbn [bind]. now apply IH.
    + cbn [mean maximum bind]. apply IH; [exact Hincl' | now apply dict_set_nodup |].
      apply dict_set_Forall; [exact Hq |]. cbn [fst snd samples].
      exists (x :: xs). split; [apply Hincl; now left |]. split; [discriminate | reflexivity].
Qed.

Lemma human_dimensions_nodup : NoDup human_dimensions.
Proof.
  unfold human_dimensions.
  repeat (constructor; [simpl; intros H;
    repeat match goal with H : _ \/ _ |- _ => destruct H end;
    solve [discriminate | contradiction] |]).
  constructor.
Qed.

End CompareFacts.

End CompareEvaluations.
